(** * Gen_TSO catalogs: a shallow embedding of the name handling, alias
    loading, record merging and catalog assembly of [gen_tso.catalogs].

    Python strings are modelled as Rocq [string]s whose characters are the
    code points 0..255 (Latin-1); the character classes below agree with
    Python's [str.isspace], [str.isalpha] and [str.islower] on that range.
    Python exceptions are the [Err] branch of the [result] monad. *)

From Stdlib Require Import ZArith Ascii String List Lia Permutation.
From stdpp Require Import base strings list.
Import ListNotations.

Open Scope string_scope.

(* ------------------------------------------------------------------ *)
(** ** Python runtime: exceptions and an error monad *)

Inductive exn := IndexError | ValueError | KeyError | NameError.

Inductive result (A : Type) : Type :=
| Ok (a : A)
| Err (e : exn).
Arguments Ok {A} a.
Arguments Err {A} e.

Global Instance result_ret : MRet result := fun A a => Ok a.
Global Instance result_bind : MBind result := fun A B f m =>
  match m with Ok a => f a | Err e => Err e end.

Definition fmap_result {A B} (f : A -> B) (m : result A) : result B :=
  match m with Ok a => Ok (f a) | Err e => Err e end.

(** [for x in xs: acc = f(acc, x)] in the error monad. *)
Fixpoint fold_m {A B} (f : A -> B -> result A) (acc : A) (xs : list B)
  : result A :=
  match xs with
  | [] => Ok acc
  | x :: xs' => a ← f acc x; fold_m f a xs'
  end.

(* ------------------------------------------------------------------ *)
(** ** Python character classes on code points 0..255 *)

Definition code (c : ascii) : nat := nat_of_ascii c.

Definition in_range (lo hi n : nat) : bool := Nat.leb lo n && Nat.leb n hi.

(** [str.isspace] (also the class matched by the regex [\s]). *)
Definition is_space (c : ascii) : bool :=
  let n := code c in
  in_range 9 13 n || in_range 28 32 n || Nat.eqb n 133 || Nat.eqb n 160.

(** [str.isalpha] *)
Definition is_alpha (c : ascii) : bool :=
  let n := code c in
  in_range 65 90 n || in_range 97 122 n || Nat.eqb n 170 || Nat.eqb n 181
  || Nat.eqb n 186 || in_range 192 214 n || in_range 216 246 n
  || in_range 248 255 n.

(** [str.islower] on a one-character string *)
Definition is_lower (c : ascii) : bool :=
  let n := code c in
  in_range 97 122 n || Nat.eqb n 170 || Nat.eqb n 181 || Nat.eqb n 186
  || in_range 223 246 n || in_range 248 255 n.

(* ------------------------------------------------------------------ *)
(** ** Python string operations *)

Definition slen (s : string) : Z := Z.of_nat (String.length s).

(** [s[i]], with negative indices counted from the end. *)
Definition py_getitem (s : string) (i : Z) : result ascii :=
  let j := if (i <? 0)%Z then (i + slen s)%Z else i in
  if ((j <? 0)%Z || (slen s <=? j)%Z) then Err IndexError
  else match String.get (Z.to_nat j) s with
       | Some c => Ok c
       | None => Err IndexError
       end.

(** [s[lo:hi]], bounds clamped as Python does. *)
Definition py_slice (s : string) (lo hi : Z) : string :=
  let norm i := if (i <? 0)%Z then Z.max 0 (i + slen s)
                else Z.min i (slen s) in
  let a := norm lo in
  let b := norm hi in
  String.substring (Z.to_nat a) (Z.to_nat (b - a)) s.

Definition slice_from (s : string) (lo : Z) : string := py_slice s lo (slen s).
Definition slice_to (s : string) (hi : Z) : string := py_slice s 0 hi.

(** [s.startswith(p)] *)
Definition startswith (s p : string) : bool := String.prefix p s.

(** [s.endswith(p)] *)
Definition endswith (s p : string) : bool :=
  let n := String.length s in
  let k := String.length p in
  (k <=? n)%nat && String.eqb (String.substring (n - k) k s) p.

(** [s.find(sub, start)]: the first position [>= start] of [sub], or -1. *)
Fixpoint find_go (sub s : string) (pos : nat) : option nat :=
  if String.prefix sub s then Some pos
  else match s with
       | EmptyString => None
       | String _ s' => find_go sub s' (S pos)
       end.

Definition py_find (s sub : string) (start : nat) : Z :=
  if (String.length s <? start)%nat then (-1)%Z
  else match find_go sub (String.substring start (String.length s - start) s) start with
       | Some p => Z.of_nat p
       | None => (-1)%Z
       end.

(** [sub in s] *)
Definition py_contains (s sub : string) : bool :=
  match find_go sub s 0 with Some _ => true | None => false end.

(** [s.index(sub)]: like [find] but raises [ValueError]. *)
Definition py_index (s sub : string) : result Z :=
  match find_go sub s 0 with
  | Some p => Ok (Z.of_nat p)
  | None => Err ValueError
  end.

(** [s.rindex(sub)]: the last position of [sub], or [ValueError]. *)
Fixpoint rfind_go (sub s : string) (pos : nat) : option nat :=
  match s with
  | EmptyString => if String.prefix sub s then Some pos else None
  | String _ s' =>
      match rfind_go sub s' (S pos) with
      | Some p => Some p
      | None => if String.prefix sub s then Some pos else None
      end
  end.

Definition py_rindex (s sub : string) : result Z :=
  match rfind_go sub s 0 with
  | Some p => Ok (Z.of_nat p)
  | None => Err ValueError
  end.

(** [s.replace(old, new)] for a non-empty [old]: every non-overlapping
    occurrence, scanning left to right; [skip] counts the characters of
    an occurrence already replaced. *)
Fixpoint replace_go (old new : string) (skip : nat) (s : string) : string :=
  match s with
  | EmptyString => EmptyString
  | String c s' =>
      match skip with
      | S k => replace_go old new k s'
      | O => if String.prefix old s
             then new +:+ replace_go old new (String.length old - 1) s'
             else String c (replace_go old new 0 s')
      end
  end.

Definition py_replace (s old new : string) : string := replace_go old new 0 s.

(** [re.sub(r'\s+', ' ', s)]: every maximal run of white space becomes
    one blank. *)
Fixpoint collapse_ws_go (in_run : bool) (s : string) : string :=
  match s with
  | EmptyString => EmptyString
  | String c s' =>
      if is_space c
      then if in_run then collapse_ws_go true s'
           else String " " (collapse_ws_go true s')
      else String c (collapse_ws_go false s')
  end.

Definition collapse_ws (s : string) : string := collapse_ws_go false s.

(** [s.strip()] *)
Fixpoint lstrip (s : string) : string :=
  match s with
  | String c s' => if is_space c then lstrip s' else s
  | EmptyString => EmptyString
  end.

Definition rev_str (s : string) : string :=
  String.string_of_list_ascii (rev (String.list_ascii_of_string s)).

Definition strip (s : string) : string := rev_str (lstrip (rev_str (lstrip s))).

(** [s.split(',')] *)
Fixpoint split_go (sep : ascii) (s : string) (cur : string) : list string :=
  match s with
  | EmptyString => [cur]
  | String c s' =>
      if Ascii.eqb c sep then cur :: split_go sep s' EmptyString
      else split_go sep s' (cur +:+ String c EmptyString)
  end.

Definition py_split (s : string) (sep : ascii) : list string :=
  split_go sep s EmptyString.

(* ------------------------------------------------------------------ *)
(** ** [catalog_utils.normalize_name] *)

Definition prefixes_spaced : list string :=
  ["L"; "G"; "HD"; "GJ"; "LTT"; "LHS"; "HIP"; "WD"; "LP"; "2MASS"; "PSR"].

(** One iteration of [for prefix in prefixes: ...] (first loop). *)
Definition space_prefix (name prefix : string) : result string :=
  let prefix_len := String.length prefix in
  if startswith name prefix then
    c ← py_getitem name (Z.of_nat prefix_len);
    if negb (is_alpha c) then
      let name := py_replace name (prefix +:+ "-") (prefix +:+ " ") in
      c' ← py_getitem name (Z.of_nat prefix_len);
      if negb (Ascii.eqb c' " ")
      then Ok (prefix +:+ " " +:+ slice_from name (Z.of_nat prefix_len))
      else Ok name
    else Ok name
  else Ok name.

Definition prefixes_signed : list string := ["CD-"; "BD-"; "BD+"].

(** One iteration of the second loop. *)
Definition space_signed (name prefix : string) : string :=
  let prefix_len := String.length prefix in
  let dash_loc := py_find name "-" prefix_len in
  if startswith name prefix && (0 <? dash_loc)%Z
  then slice_to name dash_loc +:+ " " +:+ slice_from name (dash_loc + 1)
  else name.

Definition normalize_name (target : string) : result string :=
  let name := collapse_ws target in
  (* It's a case issue: *)
  let name := py_replace name "KEPLER" "Kepler" in
  let name := py_replace name "TRES" "TrES" in
  let name := py_replace name "WOLF-" "Wolf " in
  let name := py_replace name "HATP" "HAT-P-" in
  let name := py_replace name "AU-MIC" "AU Mic" in
  (* Prefixes *)
  let name := py_replace name "GL" "GJ" in
  name ← fold_m space_prefix name prefixes_spaced;
  let name := fold_left space_signed prefixes_signed name in
  (* Main star *)
  name ← (if endswith name "A" then
            c ← py_getitem name (-2);
            if negb (is_space c) then Ok (slice_to name (-1) +:+ " A")
            else Ok name
          else Ok name);
  (* Custom corrections: *)
  let name := if String.eqb name "55CNC" || String.eqb name "RHO01-CNC"
              then "55 Cnc" else name in
  let name := py_replace name "-offset" "" in
  let name := py_replace name "-updated" "" in
  let name := if endswith name "-" then slice_to name (-1) else name in
  let name := if String.eqb name "WD 1856" then "WD 1856+534" else name in
  let name := if py_contains name "V1298" then "V1298 Tau" else name in
  Ok name.

(* ------------------------------------------------------------------ *)
(** ** [catalog_utils.is_letter] *)

(** [name[-1].islower() and name[-2] == ' '] *)
Definition is_letter (name : string) : result bool :=
  c1 ← py_getitem name (-1);
  if is_lower c1 then
    c2 ← py_getitem name (-2);
    Ok (Ascii.eqb c2 " ")
  else Ok false.

(** Every character of [s] satisfies [f]. *)
Fixpoint str_forall (f : ascii -> bool) (s : string) : bool :=
  match s with
  | EmptyString => true
  | String c s' => f c && str_forall f s'
  end.

(** [s.rfind(sub)]: the last position of [sub], or -1. *)
Definition py_rfind (s sub : string) : Z :=
  match rfind_go sub s 0 with
  | Some p => Z.of_nat p
  | None => (-1)%Z
  end.

(** [catalog_utils.get_letter] *)
Definition get_letter (name : string) : result string :=
  letter ← is_letter name;
  if (letter : bool) then Ok (slice_from name (-2))
  else if py_contains name "." then
    let idx := py_rfind name "." in
    Ok (slice_from name idx)
  else Ok "".

(** [str.isnumeric] on a one-character string (Latin-1) *)
Definition is_numeric (c : ascii) : bool :=
  let n := code c in
  in_range 48 57 n || Nat.eqb n 178 || Nat.eqb n 179 || Nat.eqb n 185
  || in_range 188 190 n.

(** [s.isnumeric()]: false on the empty string *)
Definition py_isnumeric (s : string) : bool :=
  negb (String.eqb s "") && str_forall is_numeric s.

(** [catalog_utils.is_candidate] *)
Definition is_candidate (name : string) : result bool :=
  c ← py_getitem name (-3);
  if Ascii.eqb c "." then Ok (py_isnumeric (slice_from name (-2)))
  else Ok false.

(* ------------------------------------------------------------------ *)
(** ** [catalogs.load_aliases] *)

(** A Python [dict] with string keys: an association list in insertion
    order; assigning an existing key updates it in place. *)
Definition pydict (V : Type) := list (string * V).

Fixpoint dict_get {V} (d : pydict V) (k : string) : option V :=
  match d with
  | [] => None
  | (k', v) :: d' => if String.eqb k k' then Some v else dict_get d' k
  end.

(** [d[k] = v] *)
Fixpoint dict_set {V} (d : pydict V) (k : string) (v : V) : pydict V :=
  match d with
  | [] => [(k, v)]
  | (k', v') :: d' =>
      if String.eqb k k' then (k', v) :: d' else (k', v') :: dict_set d' k v
  end.

(** [d[k]], raising [KeyError] on a missing key. *)
Definition dict_getitem {V} (d : pydict V) (k : string) : result V :=
  match dict_get d k with Some v => Ok v | None => Err KeyError end.

(** [x in xs] for a list of strings. *)
Definition str_in (x : string) (xs : list string) : bool :=
  existsb (String.eqb x) xs.

(** The alias index: a Python dict [{alias: name}]. *)
Abbreviation alias_index := (pydict string).

(** The nested [parse] of [load_aliases]: with [as_hosts], strip the
    planet letter ([name[:-2]]) or the candidate suffix ([name[:rindex('.')]]). *)
Definition parse (as_hosts : bool) (name : string) : result string :=
  if negb as_hosts then Ok name
  else
    letter ← is_letter name;
    if (letter : bool) then Ok (slice_to name (-2))
    else
      end_ ← py_rindex name ".";
      Ok (slice_to name end_).

(** The body of [for alias in line[loc+1:].strip().split(','):]. *)
Definition add_alias (as_hosts : bool) (name : string)
    (aliases : alias_index) (alias : string) : result alias_index :=
  a ← parse as_hosts alias;
  if negb (String.eqb a name) then
    a' ← parse as_hosts alias;
    Ok (dict_set aliases a' name)
  else Ok aliases.

(** The body of [for line in lines:]. *)
Definition load_line (as_hosts : bool) (aliases : alias_index) (line : string)
    : result alias_index :=
  loc ← py_index line ":";
  name ← parse as_hosts (slice_to line loc);
  fold_m (add_alias as_hosts name) aliases
    (py_split (strip (slice_from line (loc + 1))) ",").

(** [load_aliases(as_hosts)] on the lines of [nea_aliases.txt]
    (as returned by [readlines()]). *)
Definition load_aliases (lines : list string) (as_hosts : bool)
    : result alias_index :=
  fold_m (load_line as_hosts) [] lines.

(* ------------------------------------------------------------------ *)
(** ** [catalog_utils.invert_aliases] *)

Definition invert_step (aka : pydict (list string)) (kv : string * string)
    : pydict (list string) :=
  let '(key, val) := kv in
  match dict_get aka val with
  | None => dict_set aka val [key]
  | Some l => dict_set aka val (l ++ [key])%list
  end.

Definition invert_aliases (aliases : alias_index) : pydict (list string) :=
  fold_left invert_step aliases [].

(* ------------------------------------------------------------------ *)
(** ** The alias file: the writer of [fetch_catalogs.curate_aliases]
    (lines 131-134) and [f.readlines()] *)

(** [sep.join(l)] *)
Fixpoint py_join (sep : string) (l : list string) : string :=
  match l with
  | [] => ""
  | [a] => a
  | a :: l' => a +:+ (sep +:+ py_join sep l')
  end.

(** [f'{name}:{str_aliases}\n'] with [str_aliases = ','.join(aliases)]. *)
Definition alias_file_line (name : string) (aliases : list string) : string :=
  name +:+ (":" +:+ (py_join "," aliases +:+ String "010" EmptyString)).

(** The text of [nea_aliases.txt]: one line per entry of [aka], in order. *)
Definition aliases_file (aka : pydict (list string)) : string :=
  fold_right (fun p s => alias_file_line (fst p) (snd p) +:+ s) "" aka.

(** [f.readlines()] on a text without carriage returns (which text mode
    would translate): the pieces ending at each ['\n'], the newline
    kept, and a last piece without one. *)
Fixpoint readlines_go (s cur : string) : list string :=
  match s with
  | EmptyString => if String.eqb cur "" then [] else [cur]
  | String c s' =>
      if Ascii.eqb c "010" then (cur +:+ String c EmptyString) :: readlines_go s' ""
      else readlines_go s' (cur +:+ String c EmptyString)
  end.

Definition readlines (s : string) : list string := readlines_go s "".

(** [catalog_utils.select_alias] (and its copy in [fetch_catalogs]);
    [default_name] is [None] or a name. *)
Fixpoint select_alias (aka catalogs : list string) (default_name : option string)
    : option string :=
  match catalogs with
  | [] => default_name
  | catalog :: catalogs' =>
      match List.find (fun alias => startswith alias catalog) aka with
      | Some alias => Some alias
      | None => select_alias aka catalogs' default_name
      end
  end.

(* ------------------------------------------------------------------ *)
(** ** [catalogs.load_trexolist_table], lines 231-257

    The function first reads [trexolists.csv] and normalizes its targets
    ([norm_targets], [original_names]); it then reads the NEA and TESS
    tables, binding them to [nea_targets] and [tess_targets] while line 229
    reads the unbound names [nea_data] and [tess_data] (and line 227 calls
    [load_targets_table], which [catalogs.py] neither defines nor imports),
    so as written it stops there with a [NameError].  [resolve_trexolist]
    is the rest of the function, lines 231-257, with the catalog host
    names [hosts] and the host alias index as inputs. *)

Definition resolve_target (aliases : alias_index)
    (acc : alias_index * list string) (target : string)
    : alias_index * list string :=
  let '(jwst_aliases, missing) := acc in
  match dict_get aliases target with
  | Some v => (dict_set jwst_aliases target v, missing)
  | None =>
      if endswith target " A" then
        match dict_get aliases (slice_to target (-2)) with
        | Some v => (dict_set jwst_aliases target v, missing)
        | None => (jwst_aliases, (missing ++ [target])%list)
        end
      else (jwst_aliases, (missing ++ [target])%list)
  end.

Definition collect_trexo_names (jwst_aliases : alias_index)
    (trexo_names : pydict (list string)) (og : string * list string)
    : result (pydict (list string)) :=
  let '(name, originals) := og in
  alias ← dict_getitem jwst_aliases name;
  match dict_get trexo_names alias with
  | None => Ok (dict_set trexo_names alias originals)
  | Some l => Ok (dict_set trexo_names alias (l ++ originals)%list)
  end.

Record trexolist_table := {
  tt_jwst_targets : list string;
  tt_jwst_aliases : alias_index;
  tt_missing : list string;
  tt_trexo_names : pydict (list string)
}.

(** [np.unique] on strings: sorted, without repetitions. *)
Fixpoint insert_sorted (x : string) (l : list string) : list string :=
  match l with
  | [] => [x]
  | y :: l' =>
      if String.eqb x y then l
      else if String.ltb x y then x :: l else y :: insert_sorted x l'
  end.

Definition np_unique (l : list string) : list string :=
  fold_right insert_sorted [] l.

Definition resolve_trexolist (norm_targets : list string)
    (original_names : pydict (list string)) (host_aliases : alias_index)
    (hosts : list string) : result trexolist_table :=
  let aliases := fold_left (fun a host => dict_set a host host) hosts host_aliases in
  (* As named in NEA catalogs: *)
  let '(jwst_aliases, missing) :=
    fold_left (resolve_target aliases) norm_targets ([], []) in
  let jwst_aliases :=
    fold_left (fun a name => dict_set a name name) (map snd jwst_aliases)
      jwst_aliases in
  trexo_names ← fold_m (collect_trexo_names jwst_aliases) [] original_names;
  Ok {| tt_jwst_targets := np_unique (map snd jwst_aliases);
        tt_jwst_aliases := jwst_aliases;
        tt_missing := np_unique missing;
        tt_trexo_names := trexo_names |}.

(* ------------------------------------------------------------------ *)
(** ** [catalogs.Catalog.__init__]

    The constructor loads the NEA and TESS tables, the trexolists targets
    and the alias files; these are the inputs here.  A table is a list of
    rows holding the columns the constructor reads. *)

Section Catalog.
Context {F : Type}.

Record target_row := {
  planet : string;
  host : string;
  tr_dur : option F
}.

(** Lines 80-87: the name under which a JWST target is looked up among
    the catalog hosts. *)
Definition resolve_jwst_target (host_aliases : alias_index)
    (hosts_aka : pydict (list string)) (hosts : list string) (t : string)
    : result string :=
  let t := match dict_get host_aliases t with Some v => v | None => t end in
  if str_in t hosts then Ok t
  else
    aka ← dict_getitem hosts_aka t;
    Ok (fold_left (fun t' h => if str_in h hosts then h else t') aka t).

Definition resolve_jwst_targets (jwst_targets : list string)
    (host_aliases : alias_index) (hosts : list string) : result (list string) :=
  let hosts_aka := invert_aliases host_aliases in
  fold_m (fun acc t =>
            t' ← resolve_jwst_target host_aliases hosts_aka hosts t;
            Ok (acc ++ [t'])%list) [] jwst_targets.

Record planet_record := {
  p_planet : string;
  p_host : string;
  is_transiting : bool;
  is_confirmed : bool;
  is_jwst : bool
}.

(** Lines 59-61 and 103-109: the planet list and its flags. *)
Definition assemble (nea_data tess_data : list target_row)
    (jwst_targets : list string) : list planet_record :=
  let confirmed_planets := map planet nea_data in
  let tess_planets := map planet tess_data in
  map (fun r =>
         let transiting := match tr_dur r with Some _ => true | None => false end in
         {| p_planet := planet r;
            p_host := host r;
            is_transiting := transiting;
            is_confirmed := negb (str_in (planet r) tess_planets);
            is_jwst := str_in (host r) jwst_targets && transiting |})
      (nea_data ++ tess_data)%list.

(** [xs.index(x)] on a list of names: the first position of [x],
    [ValueError] when [x] is absent. *)
Fixpoint list_index (xs : list string) (x : string) : result nat :=
  match xs with
  | [] => Err ValueError
  | y :: xs' => if String.eqb y x then Ok 0 else (j ← list_index xs' x; Ok (S j))
  end.

(** [xs[j]] for [j >= 0]. *)
Definition list_getitem {A} (xs : list A) (j : nat) : result A :=
  match nth_error xs j with Some v => Ok v | None => Err IndexError end.

(** The alias lists and the JWST coordinates built by lines 111-129;
    [trexo_coords] holds one entry per planet visited ([None] where line
    96 leaves it). *)
Record alias_lists := {
  jwst_aliases : list string;
  transit_aliases : list string;
  non_transit_aliases : list string;
  confirmed_aliases : list string;
  candidate_aliases : list string;
  trexo_coords : list (option (string * string))
}.

(** Lines 111-129 of the body of [for i,target in enumerate(self.planets):],
    on the flags of the planet computed in lines 104-109 ([assemble]);
    [trexo_ra] and [trexo_dec] are the coordinate columns returned with
    [jwst_targets]. *)
Definition alias_step (planets_aka : pydict (list string)) (jwst_targets : list string)
    (trexo_ra trexo_dec : list string) (acc : alias_lists) (p : planet_record)
    : result alias_lists :=
  match dict_get planets_aka (p_planet p) with
  | None =>
      Ok {| jwst_aliases := jwst_aliases acc;
            transit_aliases := transit_aliases acc;
            non_transit_aliases := non_transit_aliases acc;
            confirmed_aliases := confirmed_aliases acc;
            candidate_aliases := candidate_aliases acc;
            trexo_coords := (trexo_coords acc ++ [None])%list |}
  | Some aliases =>
      coord ← (if is_jwst p then
                 j ← list_index jwst_targets (p_host p);
                 ra_j ← list_getitem trexo_ra j;
                 dec_j ← list_getitem trexo_dec j;
                 Ok (Some (ra_j, dec_j))
               else Ok None);
      Ok {| jwst_aliases :=
              if is_jwst p then (jwst_aliases acc ++ aliases)%list else jwst_aliases acc;
            transit_aliases :=
              if is_transiting p then (transit_aliases acc ++ aliases)%list
              else transit_aliases acc;
            non_transit_aliases :=
              if is_transiting p then non_transit_aliases acc
              else (non_transit_aliases acc ++ aliases)%list;
            confirmed_aliases :=
              if is_confirmed p then (confirmed_aliases acc ++ aliases)%list
              else confirmed_aliases acc;
            candidate_aliases :=
              if is_confirmed p then candidate_aliases acc
              else (candidate_aliases acc ++ aliases)%list;
            trexo_coords := (trexo_coords acc ++ [coord])%list |}
  end.

(** [planets_aka[target]] where present, no aliases otherwise. *)
Definition aliases_of (planets_aka : pydict (list string)) (p : planet_record) : list string :=
  match dict_get planets_aka (p_planet p) with Some l => l | None => [] end.

Definition catalog_aliases (planets_aka : pydict (list string)) (jwst_targets : list string)
    (trexo_ra trexo_dec : list string) (planets : list planet_record) : result alias_lists :=
  fold_m (alias_step planets_aka jwst_targets trexo_ra trexo_dec)
    {| jwst_aliases := []; transit_aliases := []; non_transit_aliases := [];
       confirmed_aliases := []; candidate_aliases := []; trexo_coords := [] |}
    planets.

(** [find_target] (catalogs.py, lines 21-42) once the prompt has returned
    the name [entered]: the target of the first entry with that planet
    name; when the name is not listed, [target] is never bound and the
    return statement raises [UnboundLocalError], a [NameError]. *)
Definition find_target (targets : list target_row) (entered : string) : result target_row :=
  let confirmed_planets := map planet targets in
  if str_in entered confirmed_planets then
    (j ← list_index confirmed_planets entered; list_getitem targets j)
  else Err NameError.

End Catalog.

(* ------------------------------------------------------------------ *)
(** ** [catalogs.load_targets]: the target tables [nea_data.txt] and
    [tess_data.txt]

    [float] on one token is the parameter [to_float] ([None] where Python
    raises [ValueError]); [np.array(tokens, float)] raises as soon as one
    token does not convert. *)

(** [s.split()]: the maximal runs of non-white-space characters. *)
Fixpoint split_ws_go (s cur : string) : list string :=
  match s with
  | EmptyString => if String.eqb cur "" then [] else [cur]
  | String c s' =>
      if is_space c
      then if String.eqb cur "" then split_ws_go s' "" else cur :: split_ws_go s' ""
      else split_ws_go s' (cur +:+ String c EmptyString)
  end.

Definition split_ws (s : string) : list string := split_ws_go s "".

(** [line[1:name_len]] with [name_len = line.find(':')]. *)
Definition line_label (line : string) : string :=
  py_slice line 1 (py_find line ":" 0).

(** [line[name_len+1:].split()] *)
Definition line_values (line : string) : list string :=
  split_ws (slice_from line (py_find line ":" 0 + 1)).

Section LoadTargets.
Context {F : Type} (to_float : string -> option F).

(** The star variables bound by the last host line:
    [host, ra, dec, ks_mag, rstar, mstar, teff, logg, metal]. *)
Record star := {
  s_host : string;
  s_ra : F; s_dec : F; s_ks_mag : F; s_rstar : F; s_mstar : F;
  s_teff : F; s_logg : F; s_metal : F
}.

(** [np.array(tokens, float)] *)
Definition to_floats (tokens : list string) : result (list F) :=
  fold_m (fun acc tok => match to_float tok with
                         | Some v => Ok (acc ++ [v])%list
                         | None => Err ValueError
                         end) [] tokens.

(** One pass of the loop of lines 161-184; the state is the star bound so
    far ([None] before the first host line, where the names are unbound)
    and the list [targets].  A planet line whose six values unpack goes on
    to call [Target(...)], a name [catalogs.py] neither defines nor
    imports: that call raises [NameError], so nothing is ever appended. *)
Definition load_targets_step (st : option star * list string) (line : string)
    : result (option star * list string) :=
  if startswith line ">" then
    let host := line_label line in
    star_vals ← to_floats (line_values line);
    match star_vals with
    | [ra; dec; ks_mag; rstar; mstar; teff; logg; metal] =>
        Ok (Some {| s_host := host; s_ra := ra; s_dec := dec; s_ks_mag := ks_mag;
                    s_rstar := rstar; s_mstar := mstar; s_teff := teff;
                    s_logg := logg; s_metal := metal |}, snd st)
    | _ => Err ValueError
    end
  else if startswith line " " then
    planet_vals ← to_floats (line_values line);
    match planet_vals with
    | [transit_dur; rplanet; mplanet; sma; period; teq] => Err NameError
    | _ => Err ValueError
    end
  else Ok st.

(** [load_targets] on the lines [f.readlines()] returned (lines 157-186). *)
Definition load_targets (lines : list string) : result (list string) :=
  let lines := List.filter (fun line => negb (startswith (strip line) "#")) lines in
  st ← fold_m load_targets_step (None, []) lines;
  Ok (snd st).

End LoadTargets.

(** A decimal reading of tokens made of digits, for concrete runs. *)
Definition digits_to_Z (s : string) : option Z :=
  if String.eqb s "" then None
  else fold_left (fun acc c =>
                    match acc with
                    | Some n => if in_range 48 57 (code c) then Some (10 * n + Z.of_nat (code c - 48))%Z
                                else None
                    | None => None
                    end) (list_ascii_of_string s) (Some 0%Z).

(* ------------------------------------------------------------------ *)
(** ** [fetch_catalogs]: merging the NEA rows of one planet

    Numbers are of an abstract type [F]; the formulas of the solvers and of
    [pa.equilibrium_temp] are the fields of [Physics], each named after the
    Python expression it stands for. *)

Class Physics (F : Type) := {
  (** [mstar == 0] *)
  is_zero : F -> bool;
  (** [rprs * (rs*pc.rsun) / pc.rearth] *)
  rp_of_rs_rprs : F -> F -> F;
  (** [rp*pc.rearth / rprs / pc.rsun] *)
  rs_of_rp_rprs : F -> F -> F;
  (** [rp*pc.rearth / (rs*pc.rsun)] *)
  rprs_of_rp_rs : F -> F -> F;
  (** [ars * (rs*pc.rsun) / pc.au] *)
  a_of_rs_ars : F -> F -> F;
  (** [a*pc.au / ars / pc.rsun] *)
  rs_of_a_ars : F -> F -> F;
  (** [a*pc.au / (rs*pc.rsun)] *)
  ars_of_a_rs : F -> F -> F;
  (** [2.0*np.pi * np.sqrt((sma*pc.au)**3.0/pc.G/(mstar*pc.msun)) / pc.day] *)
  period_of_sma : F -> F -> F;
  (** [((period*pc.day/(2.0*np.pi))**2.0*pc.G*mstar*pc.msun)**(1/3) / pc.au] *)
  sma_of_period : F -> F -> F;
  (** [pa.equilibrium_temp(teff, rstar*pc.rsun, sma*pc.au)[0]] *)
  equilibrium_temp : F -> F -> F -> F
}.

(** [np.argsort] on an integer array, default kind.  Numpy documents
    only that the result is a permutation of the positions ordering the
    keys ascending; the default kind is not stable, so the order among
    equal keys is left open here (it is a function of the keys alone). *)
Class Argsort := { np_argsort : list nat -> list nat }.

Class ArgsortLaws `{Argsort} : Prop := {
  np_argsort_perm : forall keys, Permutation (np_argsort keys) (seq 0 (length keys));
  np_argsort_sorted : forall keys i j a b, i < j ->
    nth_error (np_argsort keys) i = Some a -> nth_error (np_argsort keys) j = Some b ->
    nth a keys 0 <= nth b keys 0
}.

(** One sorting order [np.argsort] may take, [kind='stable']: an
    insertion sort keeping equal keys in their original order.  It runs
    the concrete examples. *)
Fixpoint insert_by_key (p : nat * nat) (l : list (nat * nat)) : list (nat * nat) :=
  match l with
  | [] => [p]
  | q :: l' => if Nat.leb (snd p) (snd q) then p :: l else q :: insert_by_key p l'
  end.

Global Instance argsort_stable : Argsort := {|
  np_argsort keys := map fst (fold_right insert_by_key [] (combine (seq 0 (length keys)) keys))
|}.

Section Merge.
Context {F : Type} `{Physics F} {AS : Argsort}.

(** One row of the NEA [ps] table, as returned by the TAP query; JSON
    [null] is [None]. *)
Record entry := {
  hostname : option string;
  pl_name : string;
  default_flag : option Z;
  sy_kmag : option F;
  sy_pnum : option Z;
  disc_facility : option string;
  ra : option F;
  dec : option F;
  st_teff : option F;
  st_logg : option F;
  st_met : option F;
  st_rad : option F;
  st_mass : option F;
  st_age : option F;
  pl_trandur : option F;
  pl_orbper : option F;
  pl_orbsmax : option F;
  pl_rade : option F;
  pl_masse : option F;
  pl_ratdor : option F;
  pl_ratror : option F
}.

Definition is_none {A} (x : option A) : bool :=
  match x with None => true | Some _ => false end.

(** The points of one entry in [rank_planets]. *)
Definition points (e : entry) : nat :=
  Nat.b2n (is_none (st_teff e)) + Nat.b2n (is_none (st_logg e))
  + Nat.b2n (is_none (st_met e)) + Nat.b2n (is_none (pl_trandur e))
  + Nat.b2n (is_none (pl_rade e))
  + Nat.b2n (is_none (pl_orbsmax e) && is_none (pl_ratdor e))
  + Nat.b2n (is_none (st_rad e) && is_none (pl_ratror e)).

Definition rank_planets (entries : list entry) : list nat :=
  np_argsort (map points entries).

Definition solve_period_sma (period sma mstar : option F)
    : option F * option F :=
  match mstar with
  | None => (period, sma)
  | Some m =>
      if is_zero m then (period, sma)
      else match period, sma with
           | None, Some a => (Some (period_of_sma a m), sma)
           | Some p, None => (period, Some (sma_of_period p m))
           | _, _ => (period, sma)
           end
  end.

Definition solve_rp_rs (rp rs rprs : option F) : option F * option F * option F :=
  let rp := match rp, rs, rprs with
            | None, Some s, Some r => Some (rp_of_rs_rprs s r)
            | _, _, _ => rp end in
  let rs := match rs, rp, rprs with
            | None, Some p, Some r => Some (rs_of_rp_rprs p r)
            | _, _, _ => rs end in
  let rprs := match rprs, rp, rs with
              | None, Some p, Some s => Some (rprs_of_rp_rs p s)
              | _, _, _ => rprs end in
  (rp, rs, rprs).

Definition solve_a_rs (a rs ars : option F) : option F * option F * option F :=
  let a := match a, rs, ars with
           | None, Some s, Some r => Some (a_of_rs_ars s r)
           | _, _, _ => a end in
  let rs := match rs, a, ars with
            | None, Some x, Some r => Some (rs_of_a_ars x r)
            | _, _, _ => rs end in
  let ars := match ars, a, rs with
             | None, Some x, Some s => Some (ars_of_a_rs x s)
             | _, _, _ => ars end in
  (a, rs, ars).

(** [complete_entry] on a copy of the row.  The divisions of [Physics]
    are total: where Python divides by a zero [rprs], [rs] or [ars] and
    raises [ZeroDivisionError], this definition still returns a record, so
    what is proved of its result describes the runs that return. *)
Definition complete_entry (e : entry) : entry :=
  let '(rade, rad, ratror) := solve_rp_rs (pl_rade e) (st_rad e) (pl_ratror e) in
  let '(orbsmax, rad, ratdor) := solve_a_rs (pl_orbsmax e) rad (pl_ratdor e) in
  let '(orbper, orbsmax) := solve_period_sma (pl_orbper e) orbsmax (st_mass e) in
  {| hostname := hostname e; pl_name := pl_name e;
     default_flag := default_flag e; sy_kmag := sy_kmag e;
     sy_pnum := sy_pnum e; disc_facility := disc_facility e;
     ra := ra e; dec := dec e; st_teff := st_teff e; st_logg := st_logg e;
     st_met := st_met e; st_rad := rad; st_mass := st_mass e;
     st_age := st_age e; pl_trandur := pl_trandur e; pl_orbper := orbper;
     pl_orbsmax := orbsmax; pl_rade := rade; pl_masse := pl_masse e;
     pl_ratdor := ratdor; pl_ratror := ratror |}.

(** [if acc[field] is None and entry[field] is not None:
       acc[field] = entry[field]] *)
Definition fill {A} (acc x : option A) : option A :=
  match acc with None => x | Some _ => acc end.

(** The loop over [planet.keys()] for one ranked duplicate; [pl_name] is
    the same in every row of the group. *)
Definition fill_entry (acc e : entry) : entry :=
  {| hostname := fill (hostname acc) (hostname e); pl_name := pl_name acc;
     default_flag := fill (default_flag acc) (default_flag e);
     sy_kmag := fill (sy_kmag acc) (sy_kmag e);
     sy_pnum := fill (sy_pnum acc) (sy_pnum e);
     disc_facility := fill (disc_facility acc) (disc_facility e);
     ra := fill (ra acc) (ra e); dec := fill (dec acc) (dec e);
     st_teff := fill (st_teff acc) (st_teff e);
     st_logg := fill (st_logg acc) (st_logg e);
     st_met := fill (st_met acc) (st_met e);
     st_rad := fill (st_rad acc) (st_rad e);
     st_mass := fill (st_mass acc) (st_mass e);
     st_age := fill (st_age acc) (st_age e);
     pl_trandur := fill (pl_trandur acc) (pl_trandur e);
     pl_orbper := fill (pl_orbper acc) (pl_orbper e);
     pl_orbsmax := fill (pl_orbsmax acc) (pl_orbsmax e);
     pl_rade := fill (pl_rade acc) (pl_rade e);
     pl_masse := fill (pl_masse acc) (pl_masse e);
     pl_ratdor := fill (pl_ratdor acc) (pl_ratdor e);
     pl_ratror := fill (pl_ratror acc) (pl_ratror e) |}.

(** [idx_duplicates]: the rows named [name], in table order. *)
Definition duplicates (resp : list entry) (name : string) : list entry :=
  filter (fun e => String.eqb (pl_name e) name) resp.

Fixpoint index_of_default (l : list entry) : option nat :=
  match l with
  | [] => None
  | e :: l' =>
      if bool_decide (default_flag e = Some 1%Z) then Some 0
      else option_map S (index_of_default l')
  end.

Fixpoint remove_at {A} (j : nat) (l : list A) : list A :=
  match l, j with
  | [], _ => []
  | _ :: l', O => l'
  | x :: l', S j' => x :: remove_at j' l'
  end.

(** The gap-filling loop: [for j in rank: ...] followed by the final
    [complete_entry]. *)
Definition gap_fill (base : entry) (dups : list entry) : entry :=
  let rank := rank_planets dups in
  let acc := fold_left (fun acc j =>
                          match nth_error dups j with
                          | Some d => fill_entry acc (complete_entry d)
                          | None => acc
                          end) rank base in
  complete_entry acc.

(** The body of [for i in range(nplanets):] for the planet [name]:
    [def_flags.index(1)] raises [ValueError] when no row is flagged. *)
Definition merge_planet (resp : list entry) (name : string) : result entry :=
  let dups_all := duplicates resp name in
  match index_of_default dups_all with
  | None => Err ValueError
  | Some j =>
      match nth_error dups_all j with
      | None => Err IndexError
      | Some d => Ok (gap_fill (complete_entry d) (remove_at j dups_all))
      end
  end.

(** The [teq] column written to [nea_data.txt]. *)
Definition teq_column (e : entry) : option F :=
  match st_teff e, st_rad e, pl_orbsmax e with
  | Some teff, Some rs, Some a => Some (equilibrium_temp teff rs a)
  | _, _, _ => None
  end.

(** Which fields of an entry are not [None] ([pl_name] is always set). *)
Definition nonnull (e : entry) : list bool :=
  [negb (is_none (hostname e)); negb (is_none (default_flag e)); negb (is_none (sy_kmag e)); negb (is_none (sy_pnum e)); negb (is_none (disc_facility e)); negb (is_none (ra e)); negb (is_none (dec e)); negb (is_none (st_teff e)); negb (is_none (st_logg e)); negb (is_none (st_met e)); negb (is_none (st_rad e)); negb (is_none (st_mass e)); negb (is_none (st_age e)); negb (is_none (pl_trandur e)); negb (is_none (pl_orbper e)); negb (is_none (pl_orbsmax e)); negb (is_none (pl_rade e)); negb (is_none (pl_masse e)); negb (is_none (pl_ratdor e)); negb (is_none (pl_ratror e))].

Definition nonnull_count (e : entry) : nat :=
  length (List.filter (fun b : bool => b) (nonnull e)).

(** [y] holds the value of [x] whenever [x] is set. *)
Definition keep {A} (x y : option A) : Prop := forall v, x = Some v -> y = Some v.

(** Every field set in [a] is set in [b] to the same value. *)
Definition keeps (a b : entry) : Prop :=
  keep (hostname a) (hostname b)
  /\ keep (default_flag a) (default_flag b)
  /\ keep (sy_kmag a) (sy_kmag b)
  /\ keep (sy_pnum a) (sy_pnum b)
  /\ keep (disc_facility a) (disc_facility b)
  /\ keep (ra a) (ra b)
  /\ keep (dec a) (dec b)
  /\ keep (st_teff a) (st_teff b)
  /\ keep (st_logg a) (st_logg b)
  /\ keep (st_met a) (st_met b)
  /\ keep (st_rad a) (st_rad b)
  /\ keep (st_mass a) (st_mass b)
  /\ keep (st_age a) (st_age b)
  /\ keep (pl_trandur a) (pl_trandur b)
  /\ keep (pl_orbper a) (pl_orbper b)
  /\ keep (pl_orbsmax a) (pl_orbsmax b)
  /\ keep (pl_rade a) (pl_rade b)
  /\ keep (pl_masse a) (pl_masse b)
  /\ keep (pl_ratdor a) (pl_ratdor b)
  /\ keep (pl_ratror a) (pl_ratror b).

(** Every field set in [a] is set in [b]. *)
Fixpoint mask_le (xs ys : list bool) : bool :=
  match xs, ys with
  | [], [] => true
  | x :: xs', y :: ys' => implb x y && mask_le xs' ys'
  | _, _ => false
  end.

Definition covers (a b : entry) : bool := mask_le (nonnull a) (nonnull b).

End Merge.

(* ------------------------------------------------------------------ *)
(** ** An integer instance of [Physics], to run the merge on concrete rows

    The solar-system constant ratios are rounded to integers
    ([pc.rsun/pc.rearth] to 109, [pc.au/pc.rsun] to 215, a year to 365
    days) and roots to their integer parts. *)

Definition icbrt (n : Z) : Z :=
  let fix go (fuel : nat) (k : Z) :=
    match fuel with
    | O => k
    | S f => if ((k + 1) ^ 3 <=? n)%Z then go f (k + 1)%Z else k
    end in
  go (Z.to_nat n) 0%Z.

Global Instance physics_Z : Physics Z := {|
  is_zero m := Z.eqb m 0;
  rp_of_rs_rprs rs rprs := (rprs * rs * 109)%Z;
  rs_of_rp_rprs rp rprs := (rp / rprs / 109)%Z;
  rprs_of_rp_rs rp rs := (rp / (rs * 109))%Z;
  a_of_rs_ars rs ars := (ars * rs / 215)%Z;
  rs_of_a_ars a ars := (a * 215 / ars)%Z;
  ars_of_a_rs a rs := (a * 215 / rs)%Z;
  period_of_sma a m := (365 * Z.sqrt (a ^ 3 / m))%Z;
  sma_of_period p m := icbrt ((p / 365) ^ 2 * m)%Z;
  equilibrium_temp teff rs a := (teff * Z.sqrt rs / Z.sqrt (2 * a * 215))%Z
|}.

(** A row of the [ps] table with only a name, a default flag and an
    effective temperature. *)
Definition row_teff (name : string) (flag : Z) (teff : option Z) : entry :=
  {| hostname := Some "H"; pl_name := name; default_flag := Some flag;
     sy_kmag := None; sy_pnum := Some 1%Z; disc_facility := None;
     ra := None; dec := None; st_teff := teff; st_logg := None;
     st_met := None; st_rad := None; st_mass := None; st_age := None;
     pl_trandur := None; pl_orbper := None; pl_orbsmax := None;
     pl_rade := None; pl_masse := None; pl_ratdor := None;
     pl_ratror := None |}.

(* ------------------------------------------------------------------ *)
(** ** Vocabulary of the properties *)

(** Stable insertion by a natural key, on any list: the sort that
    [argsort_stable] performs on (position, key) pairs. *)
Fixpoint insert_key {A} (key : A -> nat) (p : A) (l : list A) : list A :=
  match l with
  | [] => [p]
  | q :: l' => if Nat.leb (key p) (key q) then p :: l else q :: insert_key key p l'
  end.

Definition isort {A} (key : A -> nat) (l : list A) : list A :=
  fold_right (insert_key key) [] l.

Fixpoint key_sorted {A} (key : A -> nat) (l : list A) : Prop :=
  match l with
  | [] => True
  | a :: l' => Forall (fun b => key a <= key b) l' /\ key_sorted key l'
  end.

(** [default_flag == 1], the test of [def_flags.index(1)]. *)
Definition is_default {F} (e : @entry F) : bool := bool_decide (default_flag e = Some 1%Z).

(** Two values that, when both set, are equal. *)
Definition agree {A} (x y : option A) : Prop := forall v w, x = Some v -> y = Some w -> v = w.

(** Two rows that agree on every field both give. *)
Definition compatible {F} (a b : @entry F) : Prop :=
  agree (hostname a) (hostname b) /\ agree (default_flag a) (default_flag b)
  /\ agree (sy_kmag a) (sy_kmag b) /\ agree (sy_pnum a) (sy_pnum b)
  /\ agree (disc_facility a) (disc_facility b) /\ agree (ra a) (ra b)
  /\ agree (dec a) (dec b) /\ agree (st_teff a) (st_teff b)
  /\ agree (st_logg a) (st_logg b) /\ agree (st_met a) (st_met b)
  /\ agree (st_rad a) (st_rad b) /\ agree (st_mass a) (st_mass b)
  /\ agree (st_age a) (st_age b) /\ agree (pl_trandur a) (pl_trandur b)
  /\ agree (pl_orbper a) (pl_orbper b) /\ agree (pl_orbsmax a) (pl_orbsmax b)
  /\ agree (pl_rade a) (pl_rade b) /\ agree (pl_masse a) (pl_masse b)
  /\ agree (pl_ratdor a) (pl_ratdor b) /\ agree (pl_ratror a) (pl_ratror b).

(** A row with only a name, a default flag and a discovery facility. *)
Definition row_fac {F} (name : string) (flag : Z) (fac : option string) : @entry F :=
  {| hostname := Some "H"; pl_name := name; default_flag := Some flag;
     sy_kmag := None; sy_pnum := Some 1%Z; disc_facility := fac;
     ra := None; dec := None; st_teff := None; st_logg := None;
     st_met := None; st_rad := None; st_mass := None; st_age := None;
     pl_trandur := None; pl_orbper := None; pl_orbsmax := None;
     pl_rade := None; pl_masse := None; pl_ratdor := None;
     pl_ratror := None |}.

(** A word of lower-case ASCII letters. *)
Fixpoint all_lower (s : string) : bool :=
  match s with
  | EmptyString => true
  | String c s' => in_range 97 122 (code c) && all_lower s'
  end.

(** Adjacent elements strictly increasing in code-point order. *)
Fixpoint str_sorted (l : list string) : Prop :=
  match l with
  | x :: ((y :: _) as l') => String.ltb x y = true /\ str_sorted l'
  | _ => True
  end.

(** A name of the alias file without [':']. *)
Definition no_colon (s : string) : bool :=
  str_forall (fun c => negb (Ascii.eqb c ":")) s.

(** An alias that [strip] and [split(',')] leave whole. *)
Definition plain_alias (s : string) : bool :=
  String.eqb (strip s) s && str_forall (fun c => negb (Ascii.eqb c ",")) s.

(** A name or alias without a line break (['\n'] or ['\r']). *)
Definition no_line_break (s : string) : bool :=
  str_forall (fun c => negb (Ascii.eqb c "010") && negb (Ascii.eqb c "013")) s.

(** An entry [name: aliases] of the alias file that reads back whole. *)
Definition alias_entry_ok (name : string) (aliases : list string) : Prop :=
  no_colon name = true /\ no_line_break name = true /\ aliases <> []
  /\ Forall (fun a => plain_alias a = true /\ no_line_break a = true /\ a <> name) aliases.

(** The pairs [(alias, name)] of an alias table [{name: aliases}], in
    order. *)
Definition alias_pairs (aka : pydict (list string)) : alias_index :=
  concat (map (fun p => map (fun a => (a, fst p)) (snd p)) aka).

(** [s] ends with a blank followed by a lower-case letter. *)
Definition ends_with_letter (s : string) : Prop :=
  exists p c, s = p +:+ String " " (String c EmptyString) /\ is_lower c = true.

(** [s] contains a ['.']. *)
Definition has_dot (s : string) : Prop :=
  exists p q, s = p +:+ "." +:+ q.

(** The canonical name and the aliases of one line of the alias file,
    as [load_aliases] splits it. *)
Definition line_items (line : string) : list string :=
  match py_index line ":" with
  | Ok loc => slice_to line loc :: py_split (strip (slice_from line (loc + 1))) ","
  | Err _ => []
  end.

(** How many of three values are [None]. *)
Definition nones3 {A B C} (a : option A) (b : option B) (c : option C) : nat :=
  Nat.b2n (is_none a) + Nat.b2n (is_none b) + Nat.b2n (is_none c).

Example norm_ex1 : normalize_name "KEPLER-16 (AB) b" = Ok "Kepler-16 (AB) b".
Proof. reflexivity. Qed.
Example norm_ex2 : normalize_name "HD189733" = Ok "HD 189733".
Proof. reflexivity. Qed.
Example norm_ex3 : normalize_name "GL-436" = Ok "GJ 436".
Proof. reflexivity. Qed.
Example norm_ex4 : normalize_name "BD+20-2457" = Ok "BD+20 2457".
Proof. reflexivity. Qed.
Example norm_ex5 : normalize_name "WASP-107A" = Ok "WASP-107 A".
Proof. reflexivity. Qed.
Example norm_ex6 : normalize_name "WD1856" = Ok "WD 1856+534".
Proof. reflexivity. Qed.
Example norm_ex7 : normalize_name "L" = Err IndexError.
Proof. reflexivity. Qed.
Example norm_ex8 : normalize_name "TOI  270 - offset" = Ok "TOI 270 - offset".
Proof. reflexivity. Qed.
Example norm_ex9 : normalize_name "WASP-69 b-offset" = Ok "WASP-69 b".
Proof. reflexivity. Qed.
Example strip_ex : strip (" a,b " ++ String (ascii_of_nat 10) "") = "a,b".
Proof. reflexivity. Qed.
Example split_ex : py_split "a,,b" "," = ["a"; ""; "b"].
Proof. reflexivity. Qed.

Example alias_ex1 :
  match load_aliases ["WASP-69 b:BD-05 5653 b,HIP 104863 b" ++ String (ascii_of_nat 10) ""] true with
  | Ok m => m = [("BD-05 5653", "WASP-69"); ("HIP 104863", "WASP-69")]
  | Err _ => False
  end.
Proof. vm_compute. auto. Qed.
Example alias_ex2 : load_aliases ["WASP-69:HIP 104863"] true = Err ValueError.
Proof. vm_compute. reflexivity. Qed.
Example alias_ex3 : load_aliases ["b:X.01"] true = Err IndexError.
Proof. vm_compute. reflexivity. Qed.

Example trexo_ex1 :
  resolve_trexolist ["XYZ"] [("XYZ", ["XYZ"])] [] [] = Err KeyError.
Proof. reflexivity. Qed.
Example trexo_ex2 :
  match resolve_trexolist ["HD 189733 A"] [("HD 189733 A", ["HD189733"])] [] ["HD 189733"] with
  | Ok t => tt_jwst_targets t = ["HD 189733"] /\ tt_missing t = []
  | Err _ => False
  end.
Proof. vm_compute. auto. Qed.

Example merge_ex1 :
  fmap_result st_teff
    (merge_planet [row_teff "p b" 1 None; row_teff "p b" 0 (Some 5000%Z);
                   row_teff "p b" 0 (Some 6000%Z)] "p b")
  = Ok (Some 5000%Z).
Proof. reflexivity. Qed.

(* ================================================================== *)
(** * Properties *)

(** ** Catalog assembly *)

(** Claim C1 (counterexample): a planet named in both the confirmed and
    the candidate list yields two records, and neither is marked
    confirmed. *)
Lemma assemble_shared_name_counterexample :
  let r : target_row := {| planet := "WASP-69 b"; host := "WASP-69";
                           tr_dur := Some 1%Z |} in
  let cat := assemble [r] [r] [] in
  map p_planet cat = ["WASP-69 b"; "WASP-69 b"]
  /\ map is_confirmed cat = [false; false].
Proof. split; reflexivity. Qed.

(** Claim C1 (amended): a name in the candidate list gives
    [is_confirmed = false] to every record of that name, the records of
    the confirmed rows included; the catalog keeps one record per row of
    either list, so a name in both lists has at least two records, and
    the records of the confirmed rows come first, in their order, then
    those of the candidate rows. *)
Theorem assemble_shared_name {F : Type} (nea_data tess_data : list (@target_row F))
    (jwst_targets : list string) (x : string) :
  In x (map planet nea_data) -> In x (map planet tess_data) ->
  let cat := assemble nea_data tess_data jwst_targets in
  count_occ string_dec (map p_planet cat) x
    = count_occ string_dec (map planet nea_data) x
      + count_occ string_dec (map planet tess_data) x
  /\ 2 <= count_occ string_dec (map p_planet cat) x
  /\ (forall r, In r cat -> p_planet r = x -> is_confirmed r = false)
  /\ (exists c1 c2, cat = (c1 ++ c2)%list /\ map p_planet c1 = map planet nea_data
                   /\ map p_planet c2 = map planet tess_data).
Proof.
  intros Hn Ht cat.
  assert (Hmap : map p_planet cat = map planet (nea_data ++ tess_data)).
  { unfold cat, assemble. rewrite map_map. reflexivity. }
  assert (Hc : count_occ string_dec (map p_planet cat) x
               = count_occ string_dec (map planet nea_data) x
                 + count_occ string_dec (map planet tess_data) x).
  { rewrite Hmap, map_app, count_occ_app. reflexivity. }
  split; [exact Hc|]. split; [|split].
  - rewrite Hc.
    apply (count_occ_In string_dec) in Hn. apply (count_occ_In string_dec) in Ht.
    lia.
  - intros r Hr Hx. unfold cat, assemble in Hr.
    apply in_map_iff in Hr as [row [<- _]]. simpl in *. subst x.
    unfold str_in.
    assert (Hex : existsb (String.eqb (planet row)) (map planet tess_data) = true).
    { apply existsb_exists. exists (planet row). split; [exact Ht|].
      apply String.eqb_refl. }
    rewrite Hex. reflexivity.
  - unfold cat, assemble. rewrite map_app.
    eexists _, _. split; [reflexivity|]. split; rewrite map_map; reflexivity.
Qed.

(** Claim C1 (witness). *)
Lemma assemble_shared_name_witness :
  let r : target_row := {| planet := "K2-18 b"; host := "K2-18";
                           tr_dur := Some 2%Z |} in
  In "K2-18 b" (map planet [r]) /\ In "K2-18 b" (map planet [r; r])
  /\ 2 <= count_occ string_dec (map p_planet (assemble [r] [r; r] ["K2-18"])) "K2-18 b".
Proof.
  intros r. split; [left; reflexivity|]. split; [left; reflexivity|].
  apply (assemble_shared_name [r] [r; r] ["K2-18"] "K2-18 b");
    left; reflexivity.
Defined.

(** ** Name normalization and suffix classification *)

(** Claim C2: [normalize_name] indexes past the end of a name equal to a
    bare catalog prefix ([name[prefix_len]]) or to the single letter
    ["A"] ([name[-2]]) and raises [IndexError] there. *)
Theorem normalize_name_bare_prefix_raises :
  normalize_name "L" = Err IndexError
  /\ normalize_name "HD" = Err IndexError
  /\ normalize_name "A" = Err IndexError
  /\ normalize_name "" = Ok "".
Proof. repeat split; reflexivity. Qed.

(** Claim C9: [is_letter] reads [name[-1]] and [name[-2]] without a length
    check: it raises [IndexError] on the empty name and on a one-letter
    lower-case name. *)
Theorem is_letter_short_raises :
  is_letter "" = Err IndexError
  /\ is_letter "b" = Err IndexError
  /\ is_letter "B" = Ok false.
Proof. repeat split; reflexivity. Qed.

(** ** Derived parameters *)

(** Closes the goals of one solver once its inputs are fixed. *)
Ltac close_solver :=
  repeat split;
  try (left; reflexivity);
  try (right; repeat split; discriminate);
  try reflexivity;
  try (exfalso; match goal with Hn : nones3 _ _ _ <> _ |- _ =>
                  apply Hn; reflexivity end).

(** Claim C7: each triple solver fills a member only when that member is
    missing and the two others are known, and returns its triple unchanged
    when zero, two or three members are missing; the equilibrium
    temperature is present exactly when the stellar temperature, the
    stellar radius and the semi-major axis are. *)
Theorem triple_solvers_closure {F : Type} `{Physics F} :
  (forall rp rs rprs rp' rs' rprs',
     solve_rp_rs rp rs rprs = (rp', rs', rprs') ->
     (rp' = rp \/ (rp = None /\ rs <> None /\ rprs <> None))
     /\ (rs' = rs \/ (rs = None /\ rp <> None /\ rprs <> None))
     /\ (rprs' = rprs \/ (rprs = None /\ rp <> None /\ rs <> None))
     /\ (nones3 rp rs rprs <> 1 -> rp' = rp /\ rs' = rs /\ rprs' = rprs))
  /\ (forall a rs ars a' rs' ars',
     solve_a_rs a rs ars = (a', rs', ars') ->
     (a' = a \/ (a = None /\ rs <> None /\ ars <> None))
     /\ (rs' = rs \/ (rs = None /\ a <> None /\ ars <> None))
     /\ (ars' = ars \/ (ars = None /\ a <> None /\ rs <> None))
     /\ (nones3 a rs ars <> 1 -> a' = a /\ rs' = rs /\ ars' = ars))
  /\ (forall period sma mstar period' sma',
     solve_period_sma period sma mstar = (period', sma') ->
     (period' = period \/ (period = None /\ sma <> None /\ mstar <> None))
     /\ (sma' = sma \/ (sma = None /\ period <> None /\ mstar <> None))
     /\ (nones3 period sma mstar <> 1 -> period' = period /\ sma' = sma))
  /\ (forall e : entry,
     teq_column e <> None
     <-> (st_teff e <> None /\ st_rad e <> None /\ pl_orbsmax e <> None)).
Proof.
  split; [|split; [|split]].
  - intros [rp|] [rs|] [rprs|] rp' rs' rprs' Hs; cbv in Hs; inversion Hs; subst;
      close_solver.
  - intros [a|] [rs|] [ars|] a' rs' ars' Hs; cbv in Hs; inversion Hs; subst;
      close_solver.
  - intros [p|] [a|] [m|] p' a' Hs; unfold solve_period_sma in Hs;
      try destruct (is_zero m); inversion Hs; subst; close_solver.
  - intros e. unfold teq_column.
    destruct (st_teff e), (st_rad e), (pl_orbsmax e); split;
      intros Hx; repeat split; try congruence; try (destruct Hx as [? [? ?]]; congruence).
Qed.

(** Claim C7 (witness): the radius ratio is the one missing member. *)
Lemma triple_solvers_closure_witness :
  solve_rp_rs (Some 2%Z) (Some 1%Z) None = (Some 2%Z, Some 1%Z, Some 0%Z)
  /\ (Some 0%Z = @None Z \/ (@None Z = None /\ Some 2%Z <> None /\ Some 1%Z <> None)).
Proof.
  split; [reflexivity|].
  pose proof (proj1 (@triple_solvers_closure Z physics_Z)
                (Some 2%Z) (Some 1%Z) None (Some 2%Z) (Some 1%Z) (Some 0%Z)
                eq_refl) as Hc.
  exact (proj1 (proj2 (proj2 Hc))).
Defined.

(** ** Resolution of the JWST targets *)

(** Claim C8: a trexolists target that neither the host aliases nor the
    catalog hosts resolve is put in [missing], and then looked up in
    [jwst_aliases] (line 251, under the comment "TBD: Check this does not
    break for incomplete lists"), which raises [KeyError]; the constructor
    of [Catalog] raises [KeyError] on it too ([hosts_aka[...]], line 85). *)
Theorem unresolved_host_raises :
  resolve_trexolist ["XYZ"] [("XYZ", ["XYZ"])] [] ["WASP-69"] = Err KeyError
  /\ resolve_jwst_targets ["XYZ"] [] ["WASP-69"] = Err KeyError.
Proof. split; reflexivity. Qed.

(** ** Record merging *)

(** Claim C4 (counterexample): two orders of the same three rows, with
    two non-default rows of equal points, merge to different effective
    temperatures (run with [np.argsort] in its [kind='stable'] order;
    [merge_order_dependence] shows that such a swap changes the merged
    record whatever order [np.argsort] gives equal keys). *)
Lemma merge_permutation_counterexample :
  let rows1 := [row_teff "p b" 1 None; row_teff "p b" 0 (Some 5000%Z);
                row_teff "p b" 0 (Some 6000%Z)] in
  let rows2 := [row_teff "p b" 1 None; row_teff "p b" 0 (Some 6000%Z);
                row_teff "p b" 0 (Some 5000%Z)] in
  Permutation rows1 rows2
  /\ fmap_result st_teff (merge_planet rows1 "p b") = Ok (Some 5000%Z)
  /\ fmap_result st_teff (merge_planet rows2 "p b") = Ok (Some 6000%Z).
Proof.
  split; [apply perm_skip, perm_swap|]. split; reflexivity.
Qed.

(** ** Facts about the string operations *)

Lemma str_app_cons (c : ascii) (s t : string) : String c s +:+ t = String c (s +:+ t).
Proof. reflexivity. Qed.

Lemma str_app_empty (t : string) : "" +:+ t = t.
Proof. reflexivity. Qed.

Lemma str_app_length (s t : string) :
  String.length (s +:+ t) = String.length s + String.length t.
Proof. induction s as [|c s IH]; [reflexivity|]. rewrite str_app_cons. simpl. now rewrite IH. Qed.

Lemma str_app_nil (s : string) : s +:+ "" = s.
Proof. induction s as [|c s IH]; [reflexivity|]. rewrite str_app_cons. now rewrite IH. Qed.

Lemma str_app_assoc (s t u : string) : s +:+ (t +:+ u) = (s +:+ t) +:+ u.
Proof. induction s as [|c s IH]; [reflexivity|]. rewrite !str_app_cons. now rewrite IH. Qed.

Lemma substring_app_skip (w t : string) (m k : nat) :
  String.substring (String.length w + m) k (w +:+ t) = String.substring m k t.
Proof. induction w as [|c w IH]; [reflexivity|]. rewrite str_app_cons. exact IH. Qed.

Lemma substring_app_keep (w t : string) (m : nat) :
  String.substring 0 (String.length w + m) (w +:+ t) = w +:+ String.substring 0 m t.
Proof.
  induction w as [|c w IH]; [reflexivity|]. rewrite !str_app_cons. simpl. now rewrite IH.
Qed.

Lemma lower_not_space (c : ascii) : in_range 97 122 (code c) = true -> is_space c = false.
Proof. destruct c as [[] [] [] [] [] [] [] []]; vm_compute; congruence. Qed.

Lemma lower_neq (c d : ascii) :
  in_range 97 122 (code c) = true -> in_range 97 122 (code d) = false -> c <> d.
Proof. intros Hc Hd ->. congruence. Qed.

Lemma collapse_lower (w t : string) :
  all_lower w = true -> collapse_ws_go false (w +:+ t) = w +:+ collapse_ws_go false t.
Proof.
  induction w as [|c w IH]; [reflexivity|]. rewrite !str_app_cons. simpl.
  intros [Hc Hw]%andb_prop. rewrite (lower_not_space c Hc), IH by exact Hw.
  reflexivity.
Qed.

Lemma prefix_lower_head (w t p : string) (c : ascii) :
  all_lower w = true -> w <> "" -> in_range 97 122 (code c) = false ->
  String.prefix (String c p) (w +:+ t) = false.
Proof.
  destruct w as [|a w]; [congruence|]. rewrite str_app_cons. simpl.
  intros [Ha _]%andb_prop _ Hc.
  destruct (ascii_dec c a) as [->|]; [congruence | reflexivity].
Qed.

Lemma replace_lower (w t p n : string) (c : ascii) :
  all_lower w = true -> in_range 97 122 (code c) = false ->
  replace_go (String c p) n 0 (w +:+ t) = w +:+ replace_go (String c p) n 0 t.
Proof.
  intros Hw Hc. induction w as [|a w IH]; [reflexivity|].
  simpl in Hw. apply andb_prop in Hw as [Ha Hw].
  change (String a w +:+ t) with (String a (w +:+ t)).
  cbn [replace_go].
  assert (Hpre : String.prefix (String c p) (String a (w +:+ t)) = false).
  { rewrite <- str_app_cons. apply prefix_lower_head; [simpl; now rewrite Ha, Hw | congruence | exact Hc]. }
  rewrite Hpre.
  rewrite IH by exact Hw. reflexivity.
Qed.

Lemma find_go_lower (w t p : string) (c : ascii) (k : nat) :
  all_lower w = true -> in_range 97 122 (code c) = false ->
  find_go (String c p) (w +:+ t) k = find_go (String c p) t (k + String.length w).
Proof.
  revert k. induction w as [|a w IH]; intros k Hw Hc.
  - simpl. now rewrite Nat.add_0_r.
  - simpl in Hw. apply andb_prop in Hw as [Ha Hw].
    change (String a w +:+ t) with (String a (w +:+ t)).
    cbn [find_go].
    assert (Hpre : String.prefix (String c p) (String a (w +:+ t)) = false).
  { rewrite <- str_app_cons. apply prefix_lower_head; [simpl; now rewrite Ha, Hw | congruence | exact Hc]. }
  rewrite Hpre.
    rewrite IH by assumption. f_equal. simpl. lia.
Qed.

Lemma endswith_app (w t p : string) :
  String.length p <= String.length t -> endswith (w +:+ t) p = endswith t p.
Proof.
  intros Hp. unfold endswith. rewrite str_app_length.
  replace (String.length w + String.length t - String.length p)
    with (String.length w + (String.length t - String.length p)) by lia.
  rewrite substring_app_skip.
  replace (String.length p <=? String.length w + String.length t)%nat with true
    by (symmetry; apply Nat.leb_le; lia).
  replace (String.length p <=? String.length t)%nat with true
    by (symmetry; apply Nat.leb_le; lia).
  reflexivity.
Qed.

Lemma slice_to_minus_one (s : string) :
  s <> "" -> slice_to s (-1) = String.substring 0 (String.length s - 1) s.
Proof.
  intros Hs. destruct s as [|c s']; [congruence|].
  unfold slice_to, py_slice, slen.
  replace ((-1 <? 0)%Z) with true by reflexivity.
  replace ((0 <? 0)%Z) with false by reflexivity.
  rewrite Z.min_l by lia. rewrite Z.max_r by (simpl String.length; lia).
  f_equal. simpl String.length. lia.
Qed.

Lemma eqb_false_by_end (s t e : string) :
  endswith s e = true -> endswith t e = false -> String.eqb s t = false.
Proof.
  intros Hs Ht. apply String.eqb_neq. intros ->. congruence.
Qed.

Lemma fold_m_const {A B} (f : A -> B -> result A) (x : A) (xs : list B) :
  Forall (fun y => f x y = Ok x) xs -> fold_m f x xs = Ok x.
Proof. induction 1 as [|y ys Hy _ IH]; [reflexivity|]. simpl. rewrite Hy. exact IH. Qed.

Lemma space_prefix_skip (name prefix : string) :
  startswith name prefix = false -> space_prefix name prefix = Ok name.
Proof. unfold space_prefix. intros ->. reflexivity. Qed.

Lemma space_signed_skip (name prefix : string) :
  startswith name prefix = false -> space_signed name prefix = name.
Proof. unfold space_signed. intros ->. reflexivity. Qed.

(** The steps of [normalize_name] before the trailing-hyphen rule leave
    [w ++ t] unchanged when [w] is a lower-case word and [t] a run of
    hyphens. *)
Ltac normalize_word_prefix w t Hw :=
  unfold normalize_name, collapse_ws, py_replace;
  rewrite collapse_lower by exact Hw;
  rewrite !replace_lower by (exact Hw || reflexivity);
  simpl;
  let Hs := fresh "Hs" in
  assert (Hs : forall c p, in_range 97 122 (code c) = false ->
                 startswith (w +:+ t) (String c p) = false)
    by (intros; unfold startswith; apply prefix_lower_head; assumption);
  repeat (rewrite space_prefix_skip by (apply Hs; reflexivity); simpl);
  do 3 rewrite (space_signed_skip (w +:+ t)) by (apply Hs; reflexivity);
  rewrite endswith_app by (simpl; lia); simpl;
  rewrite (eqb_false_by_end (w +:+ t) "55CNC" "-")
    by (try rewrite endswith_app by (simpl; lia); reflexivity);
  rewrite (eqb_false_by_end (w +:+ t) "RHO01-CNC" "-")
    by (try rewrite endswith_app by (simpl; lia); reflexivity);
  simpl;
  rewrite !replace_lower by (exact Hw || reflexivity); simpl;
  rewrite endswith_app by (simpl; lia); simpl;
  rewrite slice_to_minus_one by (destruct w; discriminate);
  rewrite str_app_length; simpl String.length.

Lemma normalize_two_dashes (w : string) :
  all_lower w = true -> w <> "" ->
  normalize_name (w +:+ "--") = Ok (w +:+ "-").
Proof.
  intros Hw Hne. normalize_word_prefix w "--" Hw.
  replace (String.length w + 2 - 1) with (String.length w + 1) by lia.
  rewrite substring_app_keep. simpl.
  rewrite (eqb_false_by_end (w +:+ "-") "WD 1856" "-")
    by (try rewrite endswith_app by (simpl; lia); reflexivity).
  unfold py_contains. rewrite find_go_lower by (exact Hw || reflexivity).
  reflexivity.
Qed.

Lemma normalize_one_dash (w : string) :
  all_lower w = true -> w <> "" ->
  normalize_name (w +:+ "-") = Ok w.
Proof.
  intros Hw Hne. normalize_word_prefix w "-" Hw.
  replace (String.length w + 1 - 1) with (String.length w + 0) by lia.
  rewrite substring_app_keep. simpl. rewrite str_app_nil.
  assert (Hwd : String.eqb w "WD 1856" = false).
  { apply String.eqb_neq. intros ->. discriminate. }
  rewrite Hwd.
  unfold py_contains.
  replace (find_go "V1298" w 0) with (find_go "V1298" (w +:+ "") 0)
    by now rewrite str_app_nil.
  rewrite find_go_lower by (exact Hw || reflexivity).
  reflexivity.
Qed.

(** Claim C5 (counterexample): ["x--"] normalizes to ["x-"], which
    normalizes to ["x"]. *)
Lemma normalize_not_idempotent_counterexample :
  normalize_name "x--" = Ok "x-" /\ normalize_name "x-" = Ok "x".
Proof. split; reflexivity. Qed.

(** Claim C5 (amended): [normalize_name] applies its rules once, in a
    fixed order, and strips one trailing hyphen per call, so it is not
    idempotent: for every word [w] of lower-case letters,
    [normalize_name (w ++ "--") = w ++ "-"] while
    [normalize_name (w ++ "-") = w]. *)
Theorem normalize_not_idempotent (w : string) :
  all_lower w = true ->
  normalize_name (w +:+ "--") = Ok (w +:+ "-")
  /\ normalize_name (w +:+ "-") = Ok w.
Proof.
  intros Hw. destruct (string_dec w "") as [->|Hne]; [split; reflexivity|].
  split; [apply normalize_two_dashes | apply normalize_one_dash]; assumption.
Qed.

(** Claim C5 (witness). *)
Lemma normalize_not_idempotent_witness :
  all_lower "wasp" = true
  /\ normalize_name ("wasp" +:+ "--") = Ok ("wasp" +:+ "-")
  /\ normalize_name ("wasp" +:+ "-") = Ok "wasp".
Proof.
  split; [reflexivity|]. apply (normalize_not_idempotent "wasp"). reflexivity.
Defined.

(** ** Loading the alias file *)

Lemma last_two (x : string) :
  2 <= String.length x ->
  exists p a b, x = p +:+ String a (String b EmptyString)
    /\ String.get (String.length x - 2) x = Some a
    /\ String.get (String.length x - 1) x = Some b.
Proof.
  induction x as [|c x IH]; intros Hlen; [simpl in Hlen; lia|].
  change (String.length (String c x)) with (S (String.length x)) in *.
  destruct (Nat.eq_dec (String.length x) 1) as [H1|H1].
  - destruct x as [|b [|d x]]; simpl in H1; try lia.
    exists EmptyString, c, b. simpl. auto.
  - destruct IH as (p & a & b & Hx & Ha & Hb); [lia|].
    exists (String c p), a, b. split; [rewrite Hx; reflexivity|].
    replace (S (String.length x) - 1) with (S (String.length x - 1)) by lia.
    replace (S (String.length x) - 2) with (S (String.length x - 2)) by lia.
    simpl. auto.
Qed.

Lemma py_getitem_neg (s : string) (k : positive) :
  (Z.pos k <= slen s)%Z ->
  py_getitem s (Z.neg k)
  = match String.get (String.length s - Pos.to_nat k) s with
    | Some c => Ok c
    | None => Err IndexError
    end.
Proof.
  intros Hk. unfold py_getitem, slen in *.
  replace ((Z.neg k <? 0)%Z) with true by reflexivity.
  replace ((Z.neg k + Z.of_nat (String.length s) <? 0)%Z) with false
    by (symmetry; apply Z.ltb_ge; lia).
  replace ((Z.of_nat (String.length s) <=? Z.neg k + Z.of_nat (String.length s))%Z)
    with false by (symmetry; apply Z.leb_gt; lia).
  simpl orb. cbv iota.
  replace (Z.to_nat (Z.neg k + Z.of_nat (String.length s)))
    with (String.length s - Pos.to_nat k) by lia.
  reflexivity.
Qed.

Lemma py_getitem_neg_out (s : string) (k : positive) :
  (slen s < Z.pos k)%Z -> py_getitem s (Z.neg k) = Err IndexError.
Proof.
  intros Hk. unfold py_getitem, slen in *.
  replace ((Z.neg k <? 0)%Z) with true by reflexivity.
  replace ((Z.neg k + Z.of_nat (String.length s) <? 0)%Z) with true
    by (symmetry; apply Z.ltb_lt; lia).
  reflexivity.
Qed.

Lemma py_getitem_err (s : string) (i : Z) (e : exn) :
  py_getitem s i = Err e -> e = IndexError.
Proof.
  unfold py_getitem. destruct (_ || _); [congruence|].
  destruct (String.get _ _); congruence.
Qed.

Lemma is_letter_err (x : string) (e : exn) : is_letter x = Err e -> e = IndexError.
Proof.
  unfold is_letter. destruct (py_getitem x (-1)) as [c1|e1] eqn:E1; simpl.
  - destruct (is_lower c1); [|congruence].
    destruct (py_getitem x (-2)) as [c2|e2] eqn:E2; simpl; [congruence|].
    intros [= <-]. exact (py_getitem_err _ _ _ E2).
  - intros [= <-]. exact (py_getitem_err _ _ _ E1).
Qed.

Lemma is_letter_true (x : string) : is_letter x = Ok true -> ends_with_letter x.
Proof.
  unfold is_letter.
  destruct (le_lt_dec 2 (String.length x)) as [H2|H2].
  - destruct (last_two x H2) as (p & a & b & Hx & Ha & Hb).
    rewrite (py_getitem_neg x 1) by (unfold slen; lia).
    rewrite (py_getitem_neg x 2) by (unfold slen; lia).
    change (Pos.to_nat 1) with 1. change (Pos.to_nat 2) with 2.
    rewrite Ha, Hb. simpl.
    destruct (is_lower b) eqn:Hl; [|discriminate].
    intros [= Hab]. apply Ascii.eqb_eq in Hab. subst a.
    exists p, b. auto.
  - destruct x as [|c [|d x]]; simpl in H2; try lia.
    + rewrite (py_getitem_neg_out _ 1) by (unfold slen; simpl; lia). discriminate.
    + rewrite (py_getitem_neg _ 1) by (unfold slen; simpl; lia). simpl.
      destruct (is_lower c); [|discriminate].
      simpl. discriminate.
Qed.

Lemma rfind_dot (x : string) (n p : nat) : rfind_go "." x n = Some p -> has_dot x.
Proof.
  revert n p. induction x as [|c x IH]; intros n p Hr.
  - simpl in Hr. discriminate.
  - cbn [rfind_go] in Hr. destruct (rfind_go "." x (S n)) eqn:E.
    + destruct (IH (S n) _ E) as (u & v & ->). exists (String c u), v. reflexivity.
    + destruct (String.prefix "." (String c x)) eqn:P; [|discriminate Hr].
      cbn [String.prefix] in P.
      destruct (ascii_dec "." c) as [<-|]; [|discriminate P].
      exists EmptyString, x. reflexivity.
Qed.

Lemma parse_err (b : bool) (x : string) (e : exn) :
  parse b x = Err e -> e = ValueError \/ e = IndexError.
Proof.
  unfold parse. destruct b; simpl; [|discriminate].
  destruct (is_letter x) as [[|]|e1] eqn:E; simpl.
  - discriminate.
  - unfold py_rindex. destruct (rfind_go "." x 0); simpl; [discriminate|].
    intros [= <-]. auto.
  - intros [= <-]. right. exact (is_letter_err _ _ E).
Qed.

Lemma parse_bare (x : string) :
  ~ ends_with_letter x -> ~ has_dot x -> exists e, parse true x = Err e.
Proof.
  intros Hl Hd. unfold parse. simpl.
  destruct (is_letter x) as [[|]|e1] eqn:E; simpl.
  - exfalso. exact (Hl (is_letter_true x E)).
  - unfold py_rindex. destruct (rfind_go "." x 0) eqn:R.
    + exfalso. exact (Hd (rfind_dot x 0 n R)).
    + simpl. eauto.
  - eauto.
Qed.

Lemma fold_m_err_kind {A B} (P : exn -> Prop) (f : A -> B -> result A) :
  (forall acc y e, f acc y = Err e -> P e) ->
  forall xs acc e, fold_m f acc xs = Err e -> P e.
Proof.
  intros Hf xs. induction xs as [|y ys IH]; intros acc e; simpl; [discriminate|].
  destruct (f acc y) as [a|e'] eqn:E; simpl; [apply IH|].
  intros [= <-]. exact (Hf _ _ _ E).
Qed.

Lemma fold_m_hits {A B} (f : A -> B -> result A) (x : B) :
  (forall acc, exists e, f acc x = Err e) ->
  forall xs acc, In x xs -> exists e, fold_m f acc xs = Err e.
Proof.
  intros Hx xs. induction xs as [|y ys IH]; intros acc Hin; [destruct Hin|].
  simpl. destruct Hin as [<-|Hin].
  - destruct (Hx acc) as [e He]. rewrite He. simpl. eauto.
  - destruct (f acc y) as [a|e]; simpl; [apply IH, Hin|eauto].
Qed.

Lemma add_alias_err (b : bool) (name : string) (acc : alias_index) (y : string) (e : exn) :
  add_alias b name acc y = Err e -> e = ValueError \/ e = IndexError.
Proof.
  unfold add_alias. destruct (parse b y) as [a|e'] eqn:E; simpl.
  - destruct (negb _); simpl; discriminate.
  - intros [= <-]. exact (parse_err _ _ _ E).
Qed.

Lemma load_line_err (b : bool) (acc : alias_index) (line : string) (e : exn) :
  load_line b acc line = Err e -> e = ValueError \/ e = IndexError.
Proof.
  unfold load_line, py_index. destruct (find_go ":" line 0); simpl.
  - destruct (parse b _) as [name|e'] eqn:E; simpl.
    + apply (fold_m_err_kind (fun e => e = ValueError \/ e = IndexError)).
      intros. eapply add_alias_err; eassumption.
    + intros [= <-]. exact (parse_err _ _ _ E).
  - intros [= <-]. auto.
Qed.

Lemma load_line_bare (acc : alias_index) (line x : string) :
  In x (line_items line) -> ~ ends_with_letter x -> ~ has_dot x ->
  exists e, load_line true acc line = Err e.
Proof.
  unfold line_items, load_line. intros Hin Hl Hd.
  destruct (py_index line ":") as [loc|e0]; simpl; [|destruct Hin].
  destruct Hin as [<-|Hin].
  - destruct (parse_bare _ Hl Hd) as [e He]. rewrite He. simpl. eauto.
  - destruct (parse true (slice_to line loc)) as [name|e']; simpl; [|eauto].
    apply (fold_m_hits _ x); [|exact Hin].
    intros acc'. unfold add_alias.
    destruct (parse_bare _ Hl Hd) as [e He]. rewrite He. simpl. eauto.
Qed.

(** Claim C10 (code_bug): the canonical name ["b"] of the alias file
    line ["b:X.01"] neither ends with a blank and a lower-case letter nor
    contains ['.'], yet [load_aliases(as_hosts=True)] raises [IndexError]
    on it, not [ValueError]: [parse] calls [is_letter] before [rindex],
    and [is_letter] reads [name[-2]] of a one-letter lower-case name. *)
Lemma load_aliases_hosts_short_name_raises :
  ~ ends_with_letter "b" /\ ~ has_dot "b"
  /\ load_aliases ["b:X.01"] true = Err IndexError.
Proof.
  split; [|split; [|reflexivity]].
  - intros (p & c & Hx & _). destruct p as [|d [|e p]]; discriminate.
  - intros (p & q & Hx). destruct p as [|d [|e p]]; discriminate.
Qed.

(** With [as_hosts=True], a canonical name or alias
    of the alias file that neither ends with a blank and a lower-case
    letter nor contains ['.'] makes [load_aliases] raise instead of
    returning an alias index; the exception is a [ValueError] (from
    [rindex], or from [index] on a line without [':']) or an
    [IndexError] (from [is_letter] on a name shorter than two
    characters). *)
Theorem load_aliases_hosts_partial (lines : list string) (line x : string) :
  In line lines -> In x (line_items line) ->
  ~ ends_with_letter x -> ~ has_dot x ->
  exists e, load_aliases lines true = Err e /\ (e = ValueError \/ e = IndexError).
Proof.
  intros Hline Hx Hl Hd. unfold load_aliases.
  destruct (fold_m_hits (load_line true) line
              (fun acc => load_line_bare acc line x Hx Hl Hd) lines [] Hline) as [e He].
  exists e. split; [exact He|].
  revert He. apply (fold_m_err_kind (fun e => e = ValueError \/ e = IndexError)).
  intros acc y e'. apply load_line_err.
Qed.

Lemma load_aliases_hosts_partial_witness :
  exists e, load_aliases ["WASP-69 b:HD 1 b"; "WASP-69:HIP 104863"] true = Err e
            /\ (e = ValueError \/ e = IndexError).
Proof.
  apply (load_aliases_hosts_partial _ "WASP-69:HIP 104863" "WASP-69").
  - right; left; reflexivity.
  - left; reflexivity.
  - intros (p & c & Hx & Hc).
    destruct p as [|c0 [|c1 [|c2 [|c3 [|c4 [|c5 [|c6 p]]]]]]]; try discriminate.
    rewrite !str_app_cons in Hx. inversion Hx. subst. destruct p; discriminate.
  - intros (p & q & Hx).
    destruct p as [|c0 [|c1 [|c2 [|c3 [|c4 [|c5 [|c6 p]]]]]]]; try discriminate;
      rewrite ?str_app_cons in Hx; inversion Hx; subst.
    destruct p; discriminate.
Defined.

(** ** One alias listed under two canonical names *)

Lemma fold_m_app {A B} (f : A -> B -> result A) (acc : A) (xs ys : list B) :
  fold_m f acc (xs ++ ys) = (a ← fold_m f acc xs; fold_m f a ys).
Proof.
  revert acc. induction xs as [|x xs IH]; intros acc; [reflexivity|].
  simpl. destruct (f acc x); simpl; [apply IH|reflexivity].
Qed.

Lemma dict_get_set_eq {V} (d : pydict V) (k : string) (v : V) :
  dict_get (dict_set d k v) k = Some v.
Proof.
  induction d as [|[k' v'] d IH]; simpl.
  - now rewrite String.eqb_refl.
  - destruct (String.eqb k k') eqn:E; simpl; rewrite E; [reflexivity|exact IH].
Qed.

Lemma dict_get_set_neq {V} (d : pydict V) (k k' : string) (v : V) :
  k <> k' -> dict_get (dict_set d k v) k' = dict_get d k'.
Proof.
  intros Hk. induction d as [|[k0 v0] d IH]; simpl.
  - apply String.eqb_neq in Hk. rewrite String.eqb_sym, Hk. reflexivity.
  - destruct (String.eqb k k0) eqn:E; simpl.
    + apply String.eqb_eq in E. subst k0.
      apply String.eqb_neq in Hk. now rewrite String.eqb_sym, Hk.
    + destruct (String.eqb k' k0); [reflexivity|exact IH].
Qed.

Lemma find_go_no_colon (c t : string) (k : nat) :
  no_colon c = true -> find_go ":" (c +:+ t) k = find_go ":" t (k + String.length c).
Proof.
  unfold no_colon. revert k. induction c as [|a c IH]; intros k Hc.
  - rewrite Nat.add_0_r. reflexivity.
  - cbn [str_forall] in Hc. apply andb_prop in Hc as [Ha Hc].
    rewrite str_app_cons. cbn [find_go].
    assert (Hpre : String.prefix ":" (String a (c +:+ t)) = false).
    { cbn [String.prefix]. destruct (ascii_dec ":" a) as [<-|]; [discriminate Ha|reflexivity]. }
    rewrite Hpre, IH by exact Hc. f_equal. simpl. lia.
Qed.

Lemma index_colon (c a : string) :
  no_colon c = true -> py_index (c +:+ (":" +:+ a)) ":" = Ok (Z.of_nat (String.length c)).
Proof.
  intros Hc. unfold py_index. rewrite find_go_no_colon by exact Hc.
  rewrite str_app_cons, str_app_empty. cbn [find_go].
  assert (Hpre : String.prefix ":" (String ":" a) = true).
  { cbn [String.prefix]. destruct (ascii_dec ":" ":"); [|congruence].
    destruct a; reflexivity. }
  now rewrite Hpre.
Qed.

Lemma slice_to_colon (c a : string) :
  slice_to (c +:+ (":" +:+ a)) (Z.of_nat (String.length c)) = c.
Proof.
  unfold slice_to, py_slice, slen. rewrite !str_app_length. simpl String.length.
  replace ((0 <? 0)%Z) with false by reflexivity.
  replace ((Z.of_nat (String.length c) <? 0)%Z) with false
    by (symmetry; apply Z.ltb_ge; lia).
  rewrite Z.min_l by lia. rewrite Z.min_l by lia.
  replace (Z.to_nat 0) with 0 by reflexivity.
  replace (Z.to_nat (Z.of_nat (String.length c) - 0)) with (String.length c + 0) by lia.
  rewrite substring_app_keep. apply str_app_nil.
Qed.

Lemma substring_full (a : string) : String.substring 0 (String.length a) a = a.
Proof. induction a as [|c a IH]; [reflexivity|]. simpl. now rewrite IH. Qed.

Lemma slice_from_colon (c a : string) :
  slice_from (c +:+ (":" +:+ a)) (Z.of_nat (String.length c) + 1) = a.
Proof.
  unfold slice_from, py_slice, slen.
  rewrite str_app_cons, str_app_empty, str_app_length. cbn [String.length].
  destruct (Z.ltb_spec (Z.of_nat (String.length c) + 1) 0); [lia|].
  destruct (Z.ltb_spec (Z.of_nat (String.length c + S (String.length a))) 0); [lia|].
  rewrite !Z.min_l by lia.
  replace (Z.to_nat (Z.of_nat (String.length c) + 1)) with (String.length c + 1) by lia.
  replace (Z.to_nat (Z.of_nat (String.length c + S (String.length a))
                     - (Z.of_nat (String.length c) + 1)))
    with (String.length a) by lia.
  rewrite substring_app_skip. apply substring_full.
Qed.

Lemma split_go_no_sep (sep : ascii) (s cur : string) :
  str_forall (fun c => negb (Ascii.eqb c sep)) s = true ->
  split_go sep s cur = [cur +:+ s].
Proof.
  revert cur. induction s as [|c s IH]; intros cur Hs; simpl.
  - now rewrite str_app_nil.
  - apply andb_prop in Hs as [Hc Hs]. apply negb_true_iff in Hc. rewrite Hc.
    rewrite IH by exact Hs. now rewrite <- str_app_assoc.
Qed.

(** Claim C3 (counterexample): the alias ["X b"] listed under two
    canonical names loads without error; the index maps it to the
    canonical of the later line. *)
Lemma alias_two_canonicals_counterexample :
  load_aliases ["WASP-69 b:X b"; "WASP-70 b:X b"] false = Ok [("X b", "WASP-70 b")].
Proof. reflexivity. Qed.

(** [add_alias] does the same thing whatever the index it is given:
    it fails, leaves the index alone, or assigns one key. *)
Lemma add_alias_cases (h : bool) (name x : string) :
  (exists e, forall acc, add_alias h name acc x = Err e)
  \/ (forall acc, add_alias h name acc x = Ok acc)
  \/ (exists a, forall acc, add_alias h name acc x = Ok (dict_set acc a name)).
Proof.
  unfold add_alias. destruct (parse h x) as [a|e]; simpl.
  - destruct (negb (String.eqb a name)); simpl; [right; right; now exists a|].
    right; left; reflexivity.
  - left. now exists e.
Qed.

Lemma fold_add_alias_succeeds (h : bool) (name : string) (items : list string)
    (acc acc' r : alias_index) :
  fold_m (add_alias h name) acc items = Ok r ->
  exists r', fold_m (add_alias h name) acc' items = Ok r'.
Proof.
  revert acc acc' r. induction items as [|x items IH]; intros acc acc' r Hr; simpl in *.
  - now exists acc'.
  - destruct (add_alias_cases h name x) as [[e He]|[He|[a He]]];
      rewrite He in Hr |- *; simpl in Hr |- *; [discriminate|eapply IH, Hr|eapply IH, Hr].
Qed.

Lemma fold_add_alias_keys (h : bool) (name : string) (items : list string)
    (acc acc' r r' : alias_index) :
  fold_m (add_alias h name) acc items = Ok r ->
  fold_m (add_alias h name) acc' items = Ok r' ->
  forall k, (dict_get r k = dict_get acc k /\ dict_get r' k = dict_get acc' k)
            \/ (dict_get r k = Some name /\ dict_get r' k = Some name).
Proof.
  revert acc acc' r r'.
  induction items as [|x items IH]; intros acc acc' r r' Hr Hr' k; simpl in *.
  - injection Hr as <-. injection Hr' as <-. now left.
  - destruct (add_alias_cases h name x) as [[e He]|[He|[a He]]];
      rewrite !He in Hr, Hr'; simpl in Hr, Hr'; [discriminate|apply (IH _ _ _ _ Hr Hr')|].
    destruct (IH _ _ _ _ Hr Hr' k) as [[E E']|E]; [|now right].
    rewrite E, E'. destruct (String.eqb_spec a k) as [<-|Hak].
    + right. now rewrite !dict_get_set_eq.
    + left. now rewrite !dict_get_set_neq.
Qed.

Lemma load_line_succeeds (h : bool) (acc acc' r : alias_index) (l : string) :
  load_line h acc l = Ok r -> exists r', load_line h acc' l = Ok r'.
Proof.
  unfold load_line. destruct (py_index l ":") as [loc|e]; simpl; [|discriminate].
  destruct (parse h (slice_to l loc)) as [name|e]; simpl; [|discriminate].
  apply fold_add_alias_succeeds.
Qed.

(** The index after one line: the keys the line sets on its own, over
    the index it was given. *)
Lemma load_line_overlay (h : bool) (acc r ml : alias_index) (l : string) :
  load_line h acc l = Ok r -> load_line h [] l = Ok ml ->
  forall k, dict_get r k = match dict_get ml k with Some v => Some v | None => dict_get acc k end.
Proof.
  unfold load_line. destruct (py_index l ":") as [loc|e]; simpl; [|discriminate].
  destruct (parse h (slice_to l loc)) as [name|e]; simpl; [|discriminate].
  intros Hr Hm k. destruct (fold_add_alias_keys h name _ acc [] r ml Hr Hm k) as [[E E']|[E E']];
    rewrite E, E'; reflexivity.
Qed.

Lemma load_lines_ok (h : bool) (lines : list string) (acc : alias_index) :
  (exists m, fold_m (load_line h) acc lines = Ok m)
  <-> Forall (fun l => exists ml, load_line h [] l = Ok ml) lines.
Proof.
  revert acc. induction lines as [|l lines IH]; intros acc; simpl.
  - split; [constructor|eauto].
  - split.
    + intros [m Hm]. destruct (load_line h acc l) as [r|e] eqn:Hr; simpl in Hm; [|discriminate].
      constructor; [exact (load_line_succeeds h acc [] r l Hr)|]. apply (IH r). eauto.
    + intros Hf. inversion Hf as [|? ? [ml Hml] Hls]; subst.
      destruct (load_line_succeeds h [] acc ml l Hml) as [r Hr]. rewrite Hr. simpl.
      apply (IH r), Hls.
Qed.

Lemma load_lines_untouched (h : bool) (post : list string) (r m : alias_index) (k : string) :
  fold_m (load_line h) r post = Ok m ->
  (forall l' ml', In l' post -> load_line h [] l' = Ok ml' -> dict_get ml' k = None) ->
  dict_get m k = dict_get r k.
Proof.
  revert r. induction post as [|l post IH]; intros r Hm Hpost; simpl in Hm.
  - now injection Hm as <-.
  - destruct (load_line h r l) as [r1|e] eqn:Hr1; simpl in Hm; [|discriminate].
    destruct (load_line_succeeds h r [] r1 l Hr1) as [ml Hml].
    rewrite (IH r1 Hm) by (intros l' ml' Hl'; apply Hpost; now right).
    rewrite (load_line_overlay h r r1 ml l Hr1 Hml k).
    now rewrite (Hpost l ml (or_introl eq_refl) Hml).
Qed.

(** Claim C3 (amended): [load_aliases] raises no error when one alias is
    listed under two canonical names.  In either mode ([as_hosts] or not,
    keys and names parsed as the mode does) it returns an index exactly
    when every line of the file would load on its own, and the index maps
    each key to the name given by the last line that sets that key: an
    earlier line's entry is silently overwritten.  (The index is a
    [dict], so each key has one name.) *)
Theorem alias_two_canonicals_last_wins (lines : list string) (h : bool) :
  ((exists m, load_aliases lines h = Ok m)
   <-> Forall (fun l => exists ml, load_line h [] l = Ok ml) lines)
  /\ (forall m pre l post ml k c,
        load_aliases lines h = Ok m -> lines = (pre ++ l :: post)%list ->
        load_line h [] l = Ok ml -> dict_get ml k = Some c ->
        (forall l' ml', In l' post -> load_line h [] l' = Ok ml' -> dict_get ml' k = None) ->
        dict_get m k = Some c).
Proof.
  split; [apply load_lines_ok|].
  intros m pre l post ml k c Hm -> Hml Hk Hpost.
  unfold load_aliases in Hm. rewrite fold_m_app in Hm.
  destruct (fold_m (load_line h) [] pre) as [a0|e]; simpl in Hm; [|discriminate].
  destruct (load_line h a0 l) as [r|e] eqn:Hr; simpl in Hm; [|discriminate].
  rewrite (load_lines_untouched h post r m k Hm Hpost).
  now rewrite (load_line_overlay h a0 r ml l Hr Hml k), Hk.
Qed.

(** Claim C3 (witness): with [as_hosts], the host [X] of ["X b"] is
    listed under [WASP-69] and then under [WASP-70]; the index maps it
    to [WASP-70]. *)
Lemma alias_two_canonicals_last_wins_witness :
  exists m, load_aliases ["WASP-69 b:X b,Y b"; "WASP-70 b:Z b,X b"; "HD 1 b:HIP 1 b"] true = Ok m
            /\ dict_get m "X" = Some "WASP-70".
Proof.
  eexists. split; [reflexivity|].
  apply (proj2 (alias_two_canonicals_last_wins
                  ["WASP-69 b:X b,Y b"; "WASP-70 b:Z b,X b"; "HD 1 b:HIP 1 b"] true)
           _ ["WASP-69 b:X b,Y b"] "WASP-70 b:Z b,X b" ["HD 1 b:HIP 1 b"]
           [("Z", "WASP-70"); ("X", "WASP-70")]);
    [reflexivity|reflexivity|reflexivity|reflexivity|].
  intros l' ml' [<-|[]] E. injection E as <-. reflexivity.
Defined.

(** ** Gap filling *)

(** ** Ranking *)

Lemma insert_by_key_perm (p : nat * nat) (l : list (nat * nat)) :
  Permutation (insert_by_key p l) (p :: l).
Proof.
  induction l as [|q l IH]; simpl; [reflexivity|].
  destruct (Nat.leb (snd p) (snd q)); [reflexivity|].
  etransitivity; [apply perm_skip, IH|apply perm_swap].
Qed.

Lemma fold_insert_perm (l : list (nat * nat)) :
  Permutation (fold_right insert_by_key [] l) l.
Proof.
  induction l as [|p l IH]; simpl; [reflexivity|].
  etransitivity; [apply insert_by_key_perm|apply perm_skip, IH].
Qed.

Lemma map_fst_combine {A B} (xs : list A) (ys : list B) :
  length xs <= length ys -> map fst (combine xs ys) = xs.
Proof.
  revert ys. induction xs as [|x xs IH]; intros [|y ys]; simpl; intros Hl; try lia; auto.
  f_equal. apply IH. lia.
Qed.

Lemma insert_by_key_eq (p : nat * nat) (l : list (nat * nat)) :
  insert_by_key p l = insert_key snd p l.
Proof. induction l as [|q l IH]; simpl; [reflexivity|]. now rewrite IH. Qed.

Lemma insert_key_forall {A} (key : A -> nat) (P : A -> Prop) (p : A) (l : list A) :
  P p -> Forall P l -> Forall P (insert_key key p l).
Proof.
  intros Hp Hl. induction Hl as [|q l Hq Hl IH]; simpl; [auto|].
  destruct (Nat.leb (key p) (key q)); auto.
Qed.

Lemma isort_forall {A} (key : A -> nat) (P : A -> Prop) (l : list A) :
  Forall P l -> Forall P (isort key l).
Proof.
  induction 1 as [|x l Hx _ IH]; simpl; [constructor|]. now apply insert_key_forall.
Qed.

Lemma isort_sorted {A} (key : A -> nat) (l : list A) : key_sorted key (isort key l).
Proof.
  induction l as [|p l IH]; simpl; [exact I|].
  generalize dependent (isort key l). intros m Hm. clear l.
  induction m as [|q m IHm]; simpl; [split; [constructor|exact I]|].
  destruct Hm as [Hq Hm].
  destruct (Nat.leb (key p) (key q)) eqn:Hpq.
  - apply Nat.leb_le in Hpq. simpl. split; [|split; assumption].
    constructor; [exact Hpq|]. eapply Forall_impl; [exact Hq|]. simpl. lia.
  - apply Nat.leb_gt in Hpq. simpl. split; [|exact (IHm Hm)].
    apply insert_key_forall; [lia|exact Hq].
Qed.

Lemma fold_insert_isort (L : list (nat * nat)) :
  fold_right insert_by_key [] L = isort snd L.
Proof. induction L as [|p L IH]; simpl; [reflexivity|]. now rewrite IH, insert_by_key_eq. Qed.

Lemma combine_seq_nth (pre keys : list nat) :
  Forall (fun p => nth (fst p) (pre ++ keys)%list 0 = snd p)
         (combine (seq (length pre) (length keys)) keys).
Proof.
  revert pre. induction keys as [|k keys IH]; intros pre; simpl; [constructor|].
  constructor.
  - simpl. rewrite app_nth2 by lia. now rewrite Nat.sub_diag.
  - specialize (IH (pre ++ [k])%list). rewrite length_app, Nat.add_comm in IH.
    simpl in IH. now rewrite <- app_assoc in IH.
Qed.

Lemma key_sorted_nth {A} (key : A -> nat) (l : list A) :
  key_sorted key l ->
  forall i j a b, i < j -> nth_error l i = Some a -> nth_error l j = Some b -> key a <= key b.
Proof.
  induction l as [|x l IH]; intros Hs i j a b Hij Ha Hb; [destruct i; discriminate|].
  destruct Hs as [Hx Hs]. destruct i as [|i], j as [|j]; try lia; simpl in Ha, Hb.
  - injection Ha as <-. apply nth_error_In in Hb.
    rewrite List.Forall_forall in Hx. exact (Hx b Hb).
  - apply (IH Hs i j); [lia|exact Ha|exact Hb].
Qed.

Global Instance argsort_stable_laws : ArgsortLaws (H := argsort_stable).
Proof.
  split.
  - intros keys. simpl.
    rewrite (Permutation_map fst (fold_insert_perm _)).
    rewrite map_fst_combine by (rewrite length_seq; lia). reflexivity.
  - intros keys i j a b Hij Ha Hb. simpl in Ha, Hb.
    rewrite fold_insert_isort in Ha, Hb.
    pose proof (combine_seq_nth [] keys) as Hc. simpl in Hc.
    rewrite nth_error_map in Ha, Hb.
    destruct (nth_error _ i) as [pa|] eqn:Ea in Ha; [injection Ha as <-|discriminate].
    destruct (nth_error _ j) as [pb|] eqn:Eb in Hb; [injection Hb as <-|discriminate].
    rename Ea into Ha. rename Eb into Hb.
    pose proof (isort_forall snd _ _ Hc) as Hf. rewrite List.Forall_forall in Hf.
    rewrite (Hf pa (nth_error_In _ _ Ha)), (Hf pb (nth_error_In _ _ Hb)).
    exact (key_sorted_nth snd _ (isort_sorted snd _) i j pa pb Hij Ha Hb).
Qed.

Section MergeFacts.
Context {F : Type} `{Physics F} {AS : Argsort} {AL : @ArgsortLaws AS}.

Lemma keeps_refl (a : @entry F) : keeps a a.
Proof. unfold keeps, keep. split_and!; auto. Qed.

Lemma keeps_trans (a b c : @entry F) : keeps a b -> keeps b c -> keeps a c.
Proof. unfold keeps, keep. intros Hab Hbc. destruct_and!. split_and!; auto. Qed.

Lemma keep_implb {A} (x y : option A) :
  keep x y -> implb (negb (is_none x)) (negb (is_none y)) = true.
Proof.
  unfold keep. destruct x as [v|]; [|reflexivity]. intros Hk. now rewrite (Hk v eq_refl).
Qed.

Lemma keeps_covers (a b : @entry F) : keeps a b -> covers a b = true.
Proof.
  unfold keeps, covers, nonnull. intros Hab. destruct_and!. simpl.
  repeat (apply andb_true_intro; split); try apply keep_implb; auto.
Qed.

Lemma mask_le_trans (xs ys zs : list bool) :
  mask_le xs ys = true -> mask_le ys zs = true -> mask_le xs zs = true.
Proof.
  revert ys zs.
  induction xs as [|x xs IH]; intros [|y ys] [|z zs]; simpl; intros H1 H2;
    try discriminate; auto.
  apply andb_prop in H1 as [H1 H1']. apply andb_prop in H2 as [H2 H2'].
  apply andb_true_intro. split; [|eauto].
  destruct x, y, z; simpl in *; congruence.
Qed.

Lemma covers_trans (a b c : @entry F) :
  covers a b = true -> covers b c = true -> covers a c = true.
Proof. unfold covers. apply mask_le_trans. Qed.

Lemma mask_le_count (xs ys : list bool) :
  mask_le xs ys = true ->
  length (List.filter (fun b : bool => b) xs) <= length (List.filter (fun b : bool => b) ys).
Proof.
  revert ys. induction xs as [|x xs IH]; intros [|y ys]; simpl; try discriminate; [lia|].
  intros Hm. apply andb_prop in Hm as [Hxy Hm]. specialize (IH ys Hm).
  destruct x, y; simpl in *; try discriminate; lia.
Qed.

Lemma covers_count (a b : @entry F) : covers a b = true -> nonnull_count a <= nonnull_count b.
Proof. apply mask_le_count. Qed.

Lemma fill_implb {A} (x y : option A) :
  implb (negb (is_none x)) (negb (is_none (fill y x))) = true.
Proof. destruct x, y; reflexivity. Qed.

Lemma fill_entry_keeps (acc e : @entry F) : keeps acc (fill_entry acc e).
Proof.
  unfold keeps, keep, fill_entry, fill. simpl.
  split_and!; intros v Hv; rewrite Hv; reflexivity.
Qed.

Lemma fill_entry_covers (acc e : @entry F) : covers e (fill_entry acc e) = true.
Proof.
  unfold covers, nonnull, fill_entry. simpl.
  repeat (apply andb_true_intro; split); try apply fill_implb; reflexivity.
Qed.

Lemma complete_entry_keeps (e : @entry F) : keeps e (complete_entry e).
Proof.
  destruct e. unfold complete_entry, solve_rp_rs, solve_a_rs, solve_period_sma.
  simpl.
  destruct pl_rade0, st_rad0, pl_ratror0, pl_orbsmax0, pl_ratdor0, pl_orbper0, st_mass0;
    simpl;
    repeat match goal with |- context [is_zero ?m] => destruct (is_zero m) end;
    unfold keeps, keep; simpl; split_and!; intros ? ?; congruence.
Qed.

Lemma fold_keeps {A} (g : @entry F -> A -> @entry F) (r : list A) (acc : @entry F) :
  (forall a j, keeps a (g a j)) -> keeps acc (fold_left g r acc).
Proof.
  intros Hg. revert acc. induction r as [|j r IH]; intros acc; simpl.
  - apply keeps_refl.
  - eapply keeps_trans; [apply Hg|apply IH].
Qed.

Lemma fold_covers {A} (g : @entry F -> A -> @entry F) (r : list A) (acc d : @entry F) (j : A) :
  (forall a j, keeps a (g a j)) -> In j r -> (forall a, covers d (g a j) = true) ->
  covers d (fold_left g r acc) = true.
Proof.
  intros Hg Hj Hd. revert acc. induction r as [|k r IH]; intros acc; [destruct Hj|].
  simpl. destruct Hj as [<-|Hj].
  - eapply covers_trans; [apply Hd|]. apply keeps_covers, fold_keeps, Hg.
  - apply IH, Hj.
Qed.

Lemma argsort_in (keys : list nat) (i : nat) : i < length keys -> In i (np_argsort keys).
Proof.
  intros Hi. apply (Permutation_in _ (Permutation_sym (np_argsort_perm keys))).
  apply in_seq. lia.
Qed.

Lemma nth_error_remove_at {A} (l : list A) (i j : nat) (x : A) :
  i <> j -> nth_error l i = Some x -> exists i', nth_error (remove_at j l) i' = Some x.
Proof.
  revert i j. induction l as [|y l IH]; intros i j Hij Hi; [destruct i; discriminate|].
  destruct i as [|i], j as [|j]; simpl in *.
  - lia.
  - exists 0. exact Hi.
  - exists i. exact Hi.
  - destruct (IH i j) as [i' Hi']; [lia|exact Hi|]. exists (S i'). exact Hi'.
Qed.

Lemma gap_fill_keeps (base : @entry F) (dups : list (@entry F)) : keeps base (gap_fill base dups).
Proof.
  unfold gap_fill. cbv zeta.
  eapply keeps_trans; [|apply complete_entry_keeps]. apply fold_keeps.
  intros a j. destruct (nth_error dups j); [apply fill_entry_keeps|apply keeps_refl].
Qed.

Lemma gap_fill_covers (base d : @entry F) (dups : list (@entry F)) :
  In d dups -> covers d (gap_fill base dups) = true.
Proof.
  intros Hd. apply In_nth_error in Hd as [i Hi].
  unfold gap_fill. cbv zeta.
  eapply covers_trans; [|apply keeps_covers, complete_entry_keeps].
  apply (fold_covers _ _ _ _ i).
  - intros a j. destruct (nth_error dups j); [apply fill_entry_keeps|apply keeps_refl].
  - apply argsort_in. rewrite length_map. apply nth_error_Some. congruence.
  - intros a. rewrite Hi.
    eapply covers_trans; [apply keeps_covers, complete_entry_keeps|apply fill_entry_covers].
Qed.

(** Claim C6: gap filling never loses information.  The merged record of a
    planet has at least as many non-null fields as each of its duplicate
    rows (each field set in a row is set in the merged record), and a
    field already set in the accumulating record keeps its value when a
    later duplicate is merged in. *)
Theorem gap_fill_monotone (resp : list (@entry F)) (name : string) (m : @entry F) :
  merge_planet resp name = Ok m ->
  (forall d, In d (duplicates resp name) -> nonnull_count d <= nonnull_count m)
  /\ (forall acc e : @entry F, keeps acc (fill_entry acc e)).
Proof.
  intros Hm. split; [|apply fill_entry_keeps].
  intros d Hd. apply covers_count.
  unfold merge_planet in Hm. set (l := duplicates resp name) in *.
  destruct (index_of_default l) as [j|]; [|discriminate].
  destruct (nth_error l j) as [d0|] eqn:Ej; [|discriminate].
  injection Hm as <-.
  apply In_nth_error in Hd as [i Hi].
  destruct (Nat.eq_dec i j) as [->|Hij].
  - rewrite Ej in Hi. injection Hi as ->.
    eapply covers_trans; [apply keeps_covers, complete_entry_keeps|].
    apply keeps_covers, gap_fill_keeps.
  - destruct (nth_error_remove_at l i j d Hij Hi) as [i' Hi'].
    apply gap_fill_covers. eapply nth_error_In. exact Hi'.
Qed.

End MergeFacts.

(** Claim C6 (witness). *)
Lemma gap_fill_monotone_witness :
  exists m : @entry Z,
    merge_planet [row_teff "p b" 0 (Some 5000%Z); row_teff "p b" 1 None] "p b" = Ok m
    /\ (forall d, In d (duplicates [row_teff "p b" 0 (Some 5000%Z); row_teff "p b" 1 None] "p b")
                 -> nonnull_count d <= nonnull_count m)
    /\ (forall acc e : @entry Z, keeps acc (fill_entry acc e)).
Proof.
  eexists. split; [reflexivity|].
  apply (gap_fill_monotone [row_teff "p b" 0 (Some 5000%Z); row_teff "p b" 1 None] "p b").
  reflexivity.
Defined.

(** ** Ranking and merge order *)

Section MergeOrder.
Context {F : Type} `{Physics F} {AS : Argsort} {AL : @ArgsortLaws AS}.

Lemma fold_rank (dups : list (@entry F)) (r : list nat) (base : @entry F) :
  fold_left (fun acc j => match nth_error dups j with
                          | Some d => fill_entry acc (complete_entry d)
                          | None => acc
                          end) r base
  = fold_left (fun acc o => match o with
                            | Some d => fill_entry acc (complete_entry d)
                            | None => acc
                            end) (map (nth_error dups) r) base.
Proof. revert base. induction r as [|j r IH]; intros base; simpl; auto. Qed.

Lemma fold_some (l : list (@entry F)) (base : @entry F) :
  fold_left (fun acc o => match o with
                          | Some d => fill_entry acc (complete_entry d)
                          | None => acc
                          end) (map Some l) base
  = fold_left (fun acc d => fill_entry acc (complete_entry d)) l base.
Proof. revert base. induction l as [|d l IH]; intros base; simpl; auto. Qed.

Lemma map_nth_seq_self {A} (pre l : list A) (d : A) :
  map (fun j => nth j (pre ++ l)%list d) (seq (length pre) (length l)) = l.
Proof.
  revert pre. induction l as [|x l IH]; intros pre; simpl; [reflexivity|].
  rewrite app_nth2 by lia. rewrite Nat.sub_diag. simpl. f_equal.
  specialize (IH (pre ++ [x])%list). rewrite length_app, <- app_assoc in IH.
  simpl in IH. now rewrite Nat.add_comm in IH.
Qed.

Lemma nth_key_sorted {A} (key : A -> nat) (l : list A) :
  (forall i j a b, i < j -> nth_error l i = Some a -> nth_error l j = Some b -> key a <= key b) ->
  key_sorted key l.
Proof.
  induction l as [|x l IH]; intros Hl; simpl; [exact I|]. split.
  - apply List.Forall_forall. intros y Hy. apply In_nth_error in Hy as [j Hj].
    apply (Hl 0 (S j)); [lia|reflexivity|exact Hj].
  - apply IH. intros i j a b Hij Ha Hb. apply (Hl (S i) (S j)); [lia|exact Ha|exact Hb].
Qed.

(** The rows the gap-filling loop visits: all of them, by ascending
    penalty (in the order [np.argsort] leaves equal penalties). *)
Lemma rank_visits (dups : list (@entry F)) (d0 : @entry F) :
  exists V, map (nth_error dups) (rank_planets dups) = map Some V
            /\ Permutation V dups /\ key_sorted points V.
Proof.
  pose proof (np_argsort_perm (map points dups)) as Hp. rewrite length_map in Hp.
  pose proof (np_argsort_sorted (map points dups)) as Hs.
  unfold rank_planets. set (r := np_argsort (map points dups)) in *.
  assert (Hlt : forall j, In j r -> j < length dups).
  { intros j Hj. apply (Permutation_in _ Hp), in_seq in Hj. lia. }
  exists (map (fun j => nth j dups d0) r). split_and!.
  - rewrite map_map. apply map_ext_in. intros j Hj. apply nth_error_nth'. now apply Hlt.
  - etransitivity; [apply Permutation_map, Hp|].
    pose proof (map_nth_seq_self [] dups d0) as E. simpl in E. rewrite E. reflexivity.
  - apply nth_key_sorted. intros i j a b Hij Ha Hb.
    rewrite nth_error_map in Ha, Hb.
    destruct (nth_error r i) as [ra|] eqn:Ea; [|discriminate].
    destruct (nth_error r j) as [rb|] eqn:Eb; [|discriminate].
    injection Ha as <-. injection Hb as <-.
    specialize (Hs i j ra rb Hij Ea Eb).
    rewrite (nth_indep _ 0 (points d0)), map_nth in Hs
      by (rewrite length_map; apply Hlt; eapply nth_error_In; eassumption).
    rewrite (nth_indep (map points dups) 0 (points d0)), map_nth in Hs
      by (rewrite length_map; apply Hlt; eapply nth_error_In; eassumption).
    exact Hs.
Qed.

Lemma fold_fill_some {A} (f : @entry F -> option A) (l : list (@entry F)) (v : A) :
  fold_left (fun o d => fill o (f d)) l (Some v) = Some v.
Proof. induction l as [|x l IH]; simpl; auto. Qed.

Lemma fold_fill_none {A} (f : @entry F -> option A) (l : list (@entry F)) :
  match fold_left (fun o d => fill o (f d)) l None with
  | Some v => exists pre x post, l = (pre ++ x :: post)%list /\ f x = Some v
                                 /\ Forall (fun y => f y = None) pre
  | None => Forall (fun y => f y = None) l
  end.
Proof.
  induction l as [|x l IH]; simpl; [constructor|].
  destruct (f x) as [v|] eqn:Ex; simpl.
  - rewrite fold_fill_some. exists [], x, l. split_and!; auto.
  - destruct (fold_left (fun o d => fill o (f d)) l None) as [v|].
    + destruct IH as (pre & y & post & -> & Hy & Hpre).
      exists (x :: pre), y, post. split_and!; auto.
    + constructor; assumption.
Qed.

Lemma key_sorted_split {A} (key : A -> nat) (pre : list A) (x : A) (post : list A) :
  key_sorted key (pre ++ x :: post)%list -> Forall (fun y => key x <= key y) post.
Proof. induction pre as [|a pre IH]; simpl; intros [H1 H2]; auto. Qed.

Lemma first_set_le {A} (f : @entry F -> option A) (key : @entry F -> nat)
    (pre post : list (@entry F)) (x y : @entry F) (w : A) :
  key_sorted key (pre ++ x :: post)%list -> Forall (fun z => f z = None) pre ->
  In y (pre ++ x :: post)%list -> f y = Some w -> key x <= key y.
Proof.
  intros Hs Hpre Hy Hw. apply in_app_or in Hy as [Hy|[<-|Hy]].
  - rewrite List.Forall_forall in Hpre. rewrite (Hpre y Hy) in Hw. discriminate.
  - lia.
  - apply key_sorted_split in Hs. rewrite List.Forall_forall in Hs. exact (Hs y Hy).
Qed.

(** Filling one field from two orders of the same rows, both by
    ascending key, gives the same value when rows of equal key agree. *)
Lemma fold_fill_perm {A} (f : @entry F -> option A) (key : @entry F -> nat)
    (V V' : list (@entry F)) :
  Permutation V V' -> key_sorted key V -> key_sorted key V' ->
  (forall x y, In x V -> In y V -> key x = key y -> agree (f x) (f y)) ->
  fold_left (fun o d => fill o (f d)) V None = fold_left (fun o d => fill o (f d)) V' None.
Proof.
  intros Hp Hs Hs' Ha.
  pose proof (fold_fill_none f V) as H1. pose proof (fold_fill_none f V') as H2.
  destruct (fold_left (fun o d => fill o (f d)) V None) as [v|],
           (fold_left (fun o d => fill o (f d)) V' None) as [v'|].
  - destruct H1 as (pre & x & post & EV & Hx & Hpre).
    destruct H2 as (pre' & x' & post' & EV' & Hx' & Hpre').
    assert (HxV : In x V) by (rewrite EV; apply in_or_app; right; now left).
    assert (Hx'V' : In x' V') by (rewrite EV'; apply in_or_app; right; now left).
    assert (Hx'V : In x' V) by (apply (Permutation_in _ (Permutation_sym Hp)), Hx'V').
    assert (HxV' : In x V') by (apply (Permutation_in _ Hp), HxV).
    assert (K1 : key x <= key x').
    { rewrite EV in Hs, Hx'V. exact (first_set_le f key pre post x x' v' Hs Hpre Hx'V Hx'). }
    assert (K2 : key x' <= key x).
    { rewrite EV' in Hs', HxV'. exact (first_set_le f key pre' post' x' x v Hs' Hpre' HxV' Hx). }
    f_equal. apply (Ha x x' HxV Hx'V); [lia|exact Hx|exact Hx'].
  - destruct H1 as (pre & x & post & EV & Hx & _).
    assert (HxV' : In x V') by (apply (Permutation_in _ Hp); rewrite EV; apply in_or_app; right; now left).
    rewrite List.Forall_forall in H2. rewrite (H2 x HxV') in Hx. discriminate.
  - destruct H2 as (pre & x & post & EV & Hx & _).
    assert (HxV : In x V)
      by (apply (Permutation_in _ (Permutation_sym Hp)); rewrite EV; apply in_or_app; right; now left).
    rewrite List.Forall_forall in H1. rewrite (H1 x HxV) in Hx. discriminate.
  - reflexivity.
Qed.

Lemma fold_fill_entry_field {A} (g : @entry F -> option A)
    (Hg : forall a e, g (fill_entry a e) = fill (g a) (g e))
    (l : list (@entry F)) (base : @entry F) :
  g (fold_left (fun acc d => fill_entry acc (complete_entry d)) l base)
  = fold_left (fun o d => fill o (g (complete_entry d))) l (g base).
Proof. revert base. induction l as [|x l IH]; intros base; simpl; [reflexivity|]. now rewrite IH, Hg. Qed.

Lemma fold_pl_name (l : list (@entry F)) (base : @entry F) :
  pl_name (fold_left (fun acc d => fill_entry acc (complete_entry d)) l base) = pl_name base.
Proof. revert base. induction l as [|x l IH]; intros base; simpl; [reflexivity|]. now rewrite IH. Qed.

Lemma entry_ext (a b : @entry F) :
  hostname a = hostname b -> pl_name a = pl_name b -> default_flag a = default_flag b ->
  sy_kmag a = sy_kmag b -> sy_pnum a = sy_pnum b -> disc_facility a = disc_facility b ->
  ra a = ra b -> dec a = dec b -> st_teff a = st_teff b -> st_logg a = st_logg b ->
  st_met a = st_met b -> st_rad a = st_rad b -> st_mass a = st_mass b ->
  st_age a = st_age b -> pl_trandur a = pl_trandur b -> pl_orbper a = pl_orbper b ->
  pl_orbsmax a = pl_orbsmax b -> pl_rade a = pl_rade b -> pl_masse a = pl_masse b ->
  pl_ratdor a = pl_ratdor b -> pl_ratror a = pl_ratror b -> a = b.
Proof. destruct a, b; simpl; intros; subst; reflexivity. Qed.

Lemma fold_fill_entries_perm (V V' : list (@entry F)) (base : @entry F) :
  Permutation V V' -> key_sorted points V -> key_sorted points V' ->
  (forall x y, In x V -> In y V -> points x = points y ->
     compatible (complete_entry x) (complete_entry y)) ->
  fold_left (fun acc d => fill_entry acc (complete_entry d)) V base
  = fold_left (fun acc d => fill_entry acc (complete_entry d)) V' base.
Proof.
  intros Hp Hs Hs' Hc.
  apply entry_ext; try (rewrite !fold_pl_name; reflexivity);
  match goal with
  | |- ?g _ = ?g _ =>
      rewrite !(fold_fill_entry_field g) by reflexivity;
      destruct (g base); [rewrite !fold_fill_some; reflexivity|];
      apply (fold_fill_perm _ points); [exact Hp|exact Hs|exact Hs'|];
      intros x y Hx Hy Hk; specialize (Hc x y Hx Hy Hk); unfold compatible in Hc;
      destruct_and! Hc; assumption
  end.
Qed.

Lemma filter_perm {A} (p : A -> bool) (l l' : list A) :
  Permutation l l' -> Permutation (List.filter p l) (List.filter p l').
Proof.
  induction 1 as [|x l l' _ IH|x y l|l l' l'' _ IH1 _ IH2]; simpl.
  - constructor.
  - destruct (p x); [apply perm_skip|]; exact IH.
  - destruct (p x), (p y); try constructor; reflexivity.
  - etransitivity; eassumption.
Qed.

Lemma filter_none {A} (p : A -> bool) (l : list A) :
  List.filter p l = [] -> List.filter (fun x => negb (p x)) l = l.
Proof.
  induction l as [|x l IH]; simpl; [reflexivity|].
  destruct (p x); [discriminate|]. simpl. intros Hl. now rewrite IH.
Qed.

Lemma default_unique (l : list (@entry F)) :
  length (List.filter is_default l) = 1 ->
  exists j D, index_of_default l = Some j /\ nth_error l j = Some D
    /\ List.filter is_default l = [D]
    /\ remove_at j l = List.filter (fun e => negb (is_default e)) l.
Proof.
  induction l as [|e l IH]; simpl; [discriminate|].
  destruct (is_default e) eqn:Ed; simpl; unfold is_default in Ed; rewrite Ed.
  - intros [= Hl]. apply length_zero_iff_nil in Hl.
    exists 0, e. split_and!; try reflexivity.
    + now rewrite Hl.
    + symmetry. now apply filter_none.
  - intros Hl. destruct (IH Hl) as (j & D & Hj & HD & Hf & Hr).
    exists (S j), D. rewrite Hj. split_and!; try reflexivity; auto.
    simpl. now rewrite Hr.
Qed.

Lemma gap_fill_visits (base : @entry F) (dups : list (@entry F)) :
  exists V, Permutation V dups /\ key_sorted points V
    /\ gap_fill base dups
       = complete_entry (fold_left (fun acc d => fill_entry acc (complete_entry d)) V base).
Proof.
  destruct (rank_visits dups base) as (V & HV & Hp & Hs).
  exists V. split_and!; [exact Hp|exact Hs|].
  unfold gap_fill. cbv zeta. now rewrite fold_rank, HV, fold_some.
Qed.

(** Claim C4 (amended): the rows other than the default-flagged base are
    merged by ascending penalty, and the order [np.argsort] gives equal
    penalties depends on the penalty list alone, so swapping two rows of
    equal penalty that disagree on a field changes the merged record,
    whatever that order is.  What holds: when the planet has exactly one
    row with [default_flag == 1] and any two other rows of equal penalty
    agree, after [complete_entry], on every field both give, every
    permutation of the rows yields the same merged record. *)
Theorem merge_order_dependence :
  (forall (resp1 resp2 : list (@entry F)) (name : string),
     Permutation resp1 resp2 ->
     length (List.filter is_default (duplicates resp1 name)) = 1 ->
     (forall x y, In x (duplicates resp1 name) -> In y (duplicates resp1 name) ->
        is_default x = false -> is_default y = false -> points x = points y ->
        compatible (complete_entry x) (complete_entry y)) ->
     merge_planet resp1 name = merge_planet resp2 name)
  /\ merge_planet [row_fac "p b" 1 None; row_fac "p b" 0 (Some "K2");
                   row_fac "p b" 0 (Some "TESS")] "p b"
     <> merge_planet [row_fac "p b" 1 None; row_fac "p b" 0 (Some "TESS");
                      row_fac "p b" 0 (Some "K2")] "p b".
Proof.
  split.
  - intros resp1 resp2 name Hp H1 Hc.
    assert (Hd : Permutation (duplicates resp1 name) (duplicates resp2 name))
      by (unfold duplicates; now apply filter_Permutation).
    assert (H2 : length (List.filter is_default (duplicates resp2 name)) = 1)
      by (rewrite <- (Permutation_length (filter_perm is_default _ _ Hd)); exact H1).
    destruct (default_unique _ H1) as (j1 & D1 & I1 & N1 & F1 & R1).
    destruct (default_unique _ H2) as (j2 & D2 & I2 & N2 & F2 & R2).
    assert (HD : D2 = D1).
    { pose proof (filter_perm is_default _ _ Hd) as P. rewrite F1, F2 in P.
      apply Permutation_length_1_inv in P. congruence. }
    subst D2. unfold merge_planet. rewrite I1, I2, N1, N2, R1, R2. f_equal.
    destruct (gap_fill_visits (complete_entry D1)
                (List.filter (fun e => negb (is_default e)) (duplicates resp1 name)))
      as (V1 & P1 & S1 & E1).
    destruct (gap_fill_visits (complete_entry D1)
                (List.filter (fun e => negb (is_default e)) (duplicates resp2 name)))
      as (V2 & P2 & S2 & E2).
    rewrite E1, E2. f_equal. apply fold_fill_entries_perm; [| exact S1 | exact S2 |].
    + etransitivity; [exact P1|]. etransitivity; [|symmetry; exact P2].
      now apply filter_perm.
    + intros x y Hx Hy Hk.
      apply (Permutation_in _ P1), filter_In in Hx as [Hx Hnx].
      apply (Permutation_in _ P1), filter_In in Hy as [Hy Hny].
      apply negb_true_iff in Hnx, Hny. exact (Hc x y Hx Hy Hnx Hny Hk).
  - pose proof (np_argsort_perm (map points [@row_fac F "p b" 0 (Some "K2");
                                             row_fac "p b" 0 (Some "TESS")])) as Hp.
    assert (Hk : map points [@row_fac F "p b" 0 (Some "TESS"); row_fac "p b" 0 (Some "K2")]
                 = map points [@row_fac F "p b" 0 (Some "K2"); row_fac "p b" 0 (Some "TESS")])
      by reflexivity.
    simpl in Hp. apply Permutation_sym, Permutation_length_2_inv in Hp.
    simpl in Hk. unfold merge_planet, gap_fill, rank_planets. simpl. rewrite Hk.
    intros E. injection E as E. apply (f_equal disc_facility) in E.
    destruct Hp as [Hp|Hp]; rewrite Hp in E; simpl in E; discriminate.
Qed.

End MergeOrder.

(** Claim C4 (witness). *)
Lemma merge_order_dependence_witness :
  merge_planet [row_teff "p b" 1 None; row_teff "p b" 0 (Some 5000%Z)] "p b"
  = merge_planet [row_teff "p b" 0 (Some 5000%Z); row_teff "p b" 1 None] "p b".
Proof.
  apply (proj1 merge_order_dependence); [apply perm_swap|reflexivity|].
  intros x y Hx Hy. simpl in Hx, Hy.
  destruct Hx as [<-|[<-|[]]]; [intros Hd; discriminate Hd|].
  destruct Hy as [<-|[<-|[]]]; [intros _ Hd; discriminate Hd|].
  intros _ _ _. split_and!; intros v w -> [= ->]; reflexivity.
Defined.

(* ================================================================== *)
(** * Further properties of the catalog code *)

(** ** [get_letter] and the host names of [load_aliases] *)

Lemma substring_split (s : string) (n : nat) :
  n <= String.length s ->
  String.substring 0 n s +:+ String.substring n (String.length s - n) s = s.
Proof.
  revert n. induction s as [|c s IH]; intros n Hn.
  - simpl in Hn. replace n with 0 by lia. reflexivity.
  - destruct n as [|n].
    + rewrite str_app_empty, Nat.sub_0_r. apply substring_full.
    + simpl in Hn |- *. rewrite str_app_cons. f_equal. apply IH. lia.
Qed.

Lemma slice_split (s : string) (k : Z) : slice_to s k +:+ slice_from s k = s.
Proof.
  unfold slice_to, slice_from, py_slice.
  set (norm := fun i => if (i <? 0)%Z then Z.max 0 (i + slen s) else Z.min i (slen s)).
  assert (Hn : forall i, (0 <= norm i <= slen s)%Z).
  { intros i. unfold norm, slen. destruct (Z.ltb_spec i 0); lia. }
  assert (H0 : norm 0%Z = 0%Z) by (unfold norm, slen; simpl; lia).
  assert (Hl : norm (slen s) = slen s) by (unfold norm, slen; destruct (Z.ltb_spec (Z.of_nat (String.length s)) 0); lia).
  cbv zeta. fold (norm 0%Z) (norm k) (norm (slen s)). rewrite H0, Hl.
  specialize (Hn k). unfold slen in *.
  replace (Z.to_nat (norm k - 0)) with (Z.to_nat (norm k)) by lia.
  replace (Z.to_nat (Z.of_nat (String.length s) - norm k))
    with (String.length s - Z.to_nat (norm k)) by lia.
  apply substring_split. lia.
Qed.

Lemma prefix_dot_cons (c : ascii) (s : string) :
  String.prefix "." (String c s) = Ascii.eqb c ".".
Proof.
  cbn [String.prefix]. destruct (ascii_dec "." c) as [<-|Hc].
  - destruct s; reflexivity.
  - symmetry. apply Ascii.eqb_neq. congruence.
Qed.

Lemma find_dot_none (s : string) (m : nat) :
  find_go "." s m = None <-> str_forall (fun c => negb (Ascii.eqb c ".")) s = true.
Proof.
  revert m. induction s as [|c s IH]; intros m; [split; reflexivity|].
  cbn [find_go str_forall]. rewrite prefix_dot_cons.
  destruct (Ascii.eqb c "."); simpl; [split; discriminate|apply IH].
Qed.

Lemma rfind_dot_none (s : string) (m : nat) :
  rfind_go "." s m = None <-> str_forall (fun c => negb (Ascii.eqb c ".")) s = true.
Proof.
  revert m. induction s as [|c s IH]; intros m; [split; reflexivity|].
  cbn [rfind_go str_forall]. specialize (IH (S m)).
  destruct (rfind_go "." s (S m)) eqn:E.
  - split; [discriminate|]. intros H. apply andb_prop in H as [_ H].
    apply IH in H. discriminate.
  - rewrite prefix_dot_cons. destruct (Ascii.eqb c "."); simpl.
    + split; discriminate.
    + split; [intros _; now apply IH|reflexivity].
Qed.

(** [get_letter] returns the part of a name that the host parsing of
    [load_aliases(as_hosts=True)] cuts off: when the host parse succeeds,
    host and letter concatenate back to the name; when it raises
    [ValueError] (no letter, no ['.']), [get_letter] returns [''];
    and both raise [IndexError] on the same names. *)
Theorem get_letter_splits_name (name : string) :
  match parse true name, get_letter name with
  | Ok h, Ok l => h +:+ l = name
  | Err ValueError, Ok l => l = ""
  | Err IndexError, Err IndexError => True
  | _, _ => False
  end.
Proof.
  unfold parse, get_letter. simpl negb. cbv iota.
  destruct (is_letter name) as [[|]|e] eqn:E; simpl.
  - apply slice_split.
  - unfold py_rindex, py_contains, py_rfind.
    destruct (rfind_go "." name 0) as [p|] eqn:R.
    + destruct (find_go "." name 0) eqn:Fd.
      * simpl. apply slice_split.
      * apply find_dot_none in Fd. apply (rfind_dot_none _ 0) in Fd. congruence.
    + destruct (find_go "." name 0) eqn:Fd.
      * apply rfind_dot_none in R. apply (find_dot_none _ 0) in R. congruence.
      * reflexivity.
  - rewrite (is_letter_err _ _ E). exact I.
Qed.

(** ** [is_candidate] *)

Lemma get_app (p t : string) (n : nat) :
  String.get (String.length p + n) (p +:+ t) = String.get n t.
Proof. induction p as [|c p IH]; [reflexivity|]. rewrite str_app_cons. exact IH. Qed.

Lemma slice_last_two (p : string) (a d1 d2 : ascii) :
  slice_from (p +:+ String a (String d1 (String d2 EmptyString))) (-2)
  = String d1 (String d2 EmptyString).
Proof.
  unfold slice_from, py_slice, slen. rewrite str_app_length. cbn [String.length].
  replace ((-2 <? 0)%Z) with true by reflexivity.
  destruct (Z.ltb_spec (Z.of_nat (String.length p + 3)) 0); [lia|].
  rewrite Z.min_l by lia. rewrite Z.max_r by lia.
  replace (Z.to_nat (-2 + Z.of_nat (String.length p + 3))) with (String.length p + 1) by lia.
  replace (Z.to_nat (Z.of_nat (String.length p + 3) - (-2 + Z.of_nat (String.length p + 3))))
    with 2 by lia.
  rewrite substring_app_skip. reflexivity.
Qed.

(** [is_candidate] raises [IndexError] on a name shorter than three
    characters; on a longer name it is true exactly when the third-last
    character is ['.'] and the last two are numeric. *)
Theorem is_candidate_shape :
  (forall name, String.length name < 3 -> is_candidate name = Err IndexError)
  /\ (forall p a d1 d2,
        is_candidate (p +:+ String a (String d1 (String d2 EmptyString)))
        = Ok (Ascii.eqb a "." && is_numeric d1 && is_numeric d2)).
Proof.
  split.
  - intros name Hn. unfold is_candidate.
    rewrite (py_getitem_neg_out name 3) by (unfold slen; lia). reflexivity.
  - intros p a d1 d2. unfold is_candidate.
    rewrite (py_getitem_neg _ 3)
      by (unfold slen; rewrite str_app_length; cbn [String.length]; lia).
    rewrite str_app_length. cbn [String.length].
    change (Pos.to_nat 3) with 3.
    replace (String.length p + 3 - 3) with (String.length p + 0) by lia.
    rewrite get_app. simpl. destruct (Ascii.eqb a "."); [|reflexivity].
    rewrite slice_last_two. unfold py_isnumeric. simpl.
    now rewrite andb_true_r.
Qed.

Lemma is_candidate_shape_witness :
  String.length "b" < 3 /\ is_candidate "b" = Err IndexError
  /\ is_candidate ("TOI-741" +:+ ".01") = Ok true.
Proof.
  split; [simpl; lia|]. split.
  - apply (proj1 is_candidate_shape). simpl. lia.
  - exact (proj2 is_candidate_shape "TOI-741" "."%char "0"%char "1"%char).
Defined.

(** ** [select_alias] *)

Lemma find_all_false {A} (f : A -> bool) (l : list A) :
  (forall a, In a l -> f a = false) -> List.find f l = None.
Proof.
  induction l as [|a l IH]; intros Hf; simpl; [reflexivity|].
  rewrite (Hf a (or_introl eq_refl)). apply IH. intros b Hb. apply Hf. now right.
Qed.

(** [select_alias] returns [default_name] when no alias starts with any
    of the catalog prefixes; otherwise it returns the first alias (in the
    order of [aka]) starting with the first prefix (in the order of
    [catalogs]) that some alias starts with. *)
Theorem select_alias_choice (aka : list string) (d : option string) :
  (forall catalogs,
     (forall c a, In c catalogs -> In a aka -> startswith a c = false) ->
     select_alias aka catalogs d = d)
  /\ (forall pre c post a,
        (forall c0 a0, In c0 pre -> In a0 aka -> startswith a0 c0 = false) ->
        List.find (fun alias => startswith alias c) aka = Some a ->
        select_alias aka (pre ++ c :: post)%list d = Some a).
Proof.
  split.
  - intros catalogs. induction catalogs as [|c cs IH]; intros Hno; simpl; [reflexivity|].
    rewrite find_all_false by (intros a Ha; apply Hno; [now left|exact Ha]).
    apply IH. intros c0 a Hc Ha. apply Hno; [now right|exact Ha].
  - intros pre c post a. induction pre as [|c0 pre IH]; intros Hno Hfind; simpl.
    + now rewrite Hfind.
    + rewrite find_all_false by (intros a0 Ha0; apply Hno; [now left|exact Ha0]).
      apply IH; [|exact Hfind]. intros c1 a1 Hc Ha. apply Hno; [now right|exact Ha].
Qed.

Lemma select_alias_choice_witness :
  select_alias ["TIC 1"; "TOI-1"; "2MASS J1"] ["Gaia DR3"; "WASP"] (Some "HD 1")
  = Some "HD 1"
  /\ select_alias ["TIC 1"; "TOI-1"; "2MASS J1"]
       (["Gaia DR3"] ++ "2MASS" :: ["TOI"])%list None = Some "2MASS J1".
Proof.
  split.
  - apply (proj1 (select_alias_choice _ _) ["Gaia DR3"; "WASP"]).
    intros c a Hc Ha.
    destruct Hc as [<-|[<-|[]]]; destruct Ha as [<-|[<-|[<-|[]]]]; reflexivity.
  - apply (proj2 (select_alias_choice _ None) ["Gaia DR3"] "2MASS" ["TOI"]).
    + intros c0 a0 Hc Ha. destruct Hc as [<-|[]].
      destruct Ha as [<-|[<-|[<-|[]]]]; reflexivity.
    + reflexivity.
Defined.

(** ** [invert_aliases] *)

(** [invert_aliases] groups the aliases by name: [aka[name]] lists the
    keys mapped to [name], in the order of the input dict, and a name
    no key maps to is not a key of [aka]. *)
Theorem invert_aliases_groups (aliases : alias_index) (v : string) :
  dict_get (invert_aliases aliases) v
  = match map fst (List.filter (fun kv => String.eqb (snd kv) v) aliases) with
    | [] => None
    | l => Some l
    end.
Proof.
  unfold invert_aliases. revert v.
  induction aliases as [|[k w] P IH] using rev_ind; intros v; [reflexivity|].
  rewrite fold_left_app. simpl. rewrite List.filter_app, map_app. simpl.
  destruct (String.eqb_spec w v) as [<-|Hne].
  - rewrite ?String.eqb_refl. simpl map. specialize (IH w).
    destruct (map fst (List.filter (fun kv => String.eqb (snd kv) w) P))
      as [|x l'] eqn:G; rewrite IH, dict_get_set_eq; reflexivity.
  - apply String.eqb_neq in Hne as Hne'. rewrite String.eqb_sym in Hne'.
    rewrite ?Hne'. simpl. rewrite app_nil_r.
    destruct (dict_get (fold_left invert_step P []) w);
      rewrite dict_get_set_neq by exact Hne; apply IH.
Qed.

(** ** [np.unique] *)

Lemma ascii_compare_refl (a : ascii) : Ascii.compare a a = Eq.
Proof. unfold Ascii.compare. apply N.compare_refl. Qed.

Lemma str_compare_refl (s : string) : String.compare s s = Eq.
Proof. induction s as [|c s IH]; simpl; [reflexivity|]. now rewrite ascii_compare_refl. Qed.

Lemma str_compare_trans (a b c : string) :
  String.compare a b = Lt -> String.compare b c = Lt -> String.compare a c = Lt.
Proof.
  revert b c. induction a as [|x a IH]; intros [|y b] [|z c]; simpl; try congruence.
  destruct (Ascii.compare x y) eqn:Exy, (Ascii.compare y z) eqn:Eyz; try congruence.
  - apply Ascii.compare_eq_iff in Exy, Eyz. subst. rewrite ascii_compare_refl. apply IH.
  - apply Ascii.compare_eq_iff in Exy. subst. now rewrite Eyz.
  - apply Ascii.compare_eq_iff in Eyz. subst. now rewrite Exy.
  - intros _ _. unfold Ascii.compare in *.
    rewrite N.compare_lt_iff in Exy, Eyz.
    replace (N.compare (N_of_ascii x) (N_of_ascii z)) with Lt
      by (symmetry; apply N.compare_lt_iff; lia). reflexivity.
Qed.

Lemma str_ltb_trans (a b c : string) :
  String.ltb a b = true -> String.ltb b c = true -> String.ltb a c = true.
Proof.
  unfold String.ltb.
  destruct (String.compare a b) eqn:E1; try discriminate.
  destruct (String.compare b c) eqn:E2; try discriminate.
  now rewrite (str_compare_trans a b c E1 E2).
Qed.

Lemma str_ltb_irrefl (a : string) : String.ltb a a = false.
Proof. unfold String.ltb. now rewrite str_compare_refl. Qed.

Lemma str_trichotomy (x y : string) :
  String.eqb x y = false -> String.ltb x y = false -> String.ltb y x = true.
Proof.
  unfold String.ltb. intros He Hl. rewrite String.compare_antisym.
  destruct (String.compare x y) eqn:E; simpl; try discriminate; [|reflexivity].
  apply String.compare_eq_iff in E. subst. now rewrite String.eqb_refl in He.
Qed.

Lemma insert_sorted_in (x z : string) (l : list string) :
  In z (insert_sorted x l) <-> z = x \/ In z l.
Proof.
  induction l as [|y l IH]; simpl; [intuition congruence|].
  destruct (String.eqb_spec x y) as [<-|_]; [simpl; intuition congruence|].
  destruct (String.ltb x y); simpl; [intuition congruence|].
  rewrite IH. intuition congruence.
Qed.

Lemma insert_sorted_head (x y : string) (l : list string) :
  str_sorted (y :: l) -> String.ltb y x = true -> str_sorted (y :: insert_sorted x l).
Proof.
  revert y. induction l as [|z l IH]; intros y Hs Hyx; simpl; [auto|].
  destruct Hs as [Hyz Hs].
  destruct (String.eqb x z) eqn:Exz; [simpl; auto|].
  destruct (String.ltb x z) eqn:Lxz; [simpl; auto|].
  split; [exact Hyz|]. apply IH; [exact Hs|]. now apply str_trichotomy.
Qed.

Lemma insert_sorted_sorted (x : string) (l : list string) :
  str_sorted l -> str_sorted (insert_sorted x l).
Proof.
  destruct l as [|y l]; intros Hs; simpl; [exact I|].
  destruct (String.eqb x y) eqn:Exy; [exact Hs|].
  destruct (String.ltb x y) eqn:Lxy; [simpl; auto|].
  apply insert_sorted_head; [exact Hs|]. now apply str_trichotomy.
Qed.

Lemma str_sorted_forall (x : string) (l : list string) :
  str_sorted (x :: l) -> Forall (fun y => String.ltb x y = true) l.
Proof.
  revert x. induction l as [|y l IH]; intros x Hs; [constructor|].
  destruct Hs as [Hxy Hs]. constructor; [exact Hxy|].
  specialize (IH y Hs). eapply Forall_impl; [exact IH|].
  intros z Hz. exact (str_ltb_trans _ _ _ Hxy Hz).
Qed.

Lemma str_sorted_nodup (l : list string) : str_sorted l -> List.NoDup l.
Proof.
  induction l as [|x l IH]; intros Hs; constructor.
  - intros Hx. apply str_sorted_forall in Hs. rewrite List.Forall_forall in Hs.
    specialize (Hs x Hx). now rewrite str_ltb_irrefl in Hs.
  - apply IH. destruct l; [exact I|]. exact (proj2 Hs).
Qed.

Lemma np_unique_in (l : list string) (x : string) : In x (np_unique l) <-> In x l.
Proof.
  revert x. induction l as [|y l IH]; intros x; simpl; [tauto|].
  rewrite insert_sorted_in. unfold np_unique in IH. rewrite IH. intuition congruence.
Qed.

(** [np.unique] as [load_trexolist_table] uses it on target names: the
    result is strictly increasing in code-point order, has no
    repetitions, and holds exactly the names of its input. *)
Theorem np_unique_spec (l : list string) :
  str_sorted (np_unique l) /\ List.NoDup (np_unique l)
  /\ (forall x, In x (np_unique l) <-> In x l).
Proof.
  assert (Hs : str_sorted (np_unique l)).
  { induction l as [|x l IH]; [exact I|]. now apply insert_sorted_sorted. }
  split; [exact Hs|]. split; [now apply str_sorted_nodup|].
  exact (np_unique_in l).
Qed.

(** ** Invariants of [load_aliases] *)

Lemma fold_m_inv {A B} (P : A -> Prop) (f : A -> B -> result A) :
  (forall a x a', P a -> f a x = Ok a' -> P a') ->
  forall xs acc r, P acc -> fold_m f acc xs = Ok r -> P r.
Proof.
  intros Hf xs. induction xs as [|x xs IH]; intros acc r Hacc H; simpl in H.
  - now injection H as <-.
  - destruct (f acc x) as [a|e] eqn:E; [|discriminate].
    exact (IH a r (Hf _ _ _ Hacc E) H).
Qed.

Lemma dict_set_keys_in {V} (d : pydict V) (k x : string) (v : V) :
  In x (map fst (dict_set d k v)) <-> x = k \/ In x (map fst d).
Proof.
  induction d as [|[k0 v0] d IH]; simpl; [intuition congruence|].
  destruct (String.eqb_spec k k0) as [<-|_]; simpl; [intuition congruence|].
  rewrite IH. tauto.
Qed.

Lemma dict_set_nodup {V} (d : pydict V) (k : string) (v : V) :
  List.NoDup (map fst d) -> List.NoDup (map fst (dict_set d k v)).
Proof.
  induction d as [|[k0 v0] d IH]; intros Hd; simpl.
  - constructor; [intros []|constructor].
  - inversion Hd as [|? ? Hn Hd']; subst.
    destruct (String.eqb k k0) eqn:E; simpl; [exact Hd|].
    constructor; [|exact (IH Hd')].
    rewrite dict_set_keys_in. apply String.eqb_neq in E. intuition congruence.
Qed.

Lemma dict_set_forall {V} (P : string * V -> Prop) (d : pydict V) (k : string) (v : V) :
  Forall P d -> P (k, v) -> Forall P (dict_set d k v).
Proof.
  induction d as [|[k0 v0] d IH]; intros Hd Hkv; simpl; [now constructor|].
  inversion Hd as [|? ? H0 Hd']; subst.
  destruct (String.eqb_spec k k0) as [<-|_]; constructor; auto.
Qed.

Definition alias_table_ok (m : alias_index) : Prop :=
  List.NoDup (map fst m) /\ Forall (fun kv => fst kv <> snd kv) m.

Lemma add_alias_ok (b : bool) (name : string) (m m' : alias_index) (alias : string) :
  alias_table_ok m -> add_alias b name m alias = Ok m' -> alias_table_ok m'.
Proof.
  unfold add_alias. intros [Hn Hf] H.
  destruct (parse b alias) as [a|e] eqn:Ep; simpl in H; [|discriminate].
  destruct (String.eqb_spec a name) as [_|Hne]; simpl in H.
  - injection H as <-. now split.
  - injection H as <-. split.
    + now apply dict_set_nodup.
    + apply dict_set_forall; [exact Hf|exact Hne].
Qed.

Lemma load_line_ok (b : bool) (m m' : alias_index) (line : string) :
  alias_table_ok m -> load_line b m line = Ok m' -> alias_table_ok m'.
Proof.
  unfold load_line. intros Hm H.
  destruct (py_index line ":") as [loc|e]; simpl in H; [|discriminate].
  destruct (parse b (slice_to line loc)) as [name|e]; simpl in H; [|discriminate].
  revert H. apply (fold_m_inv alias_table_ok); [|exact Hm].
  intros a x a' Ha Hx. exact (add_alias_ok b name a a' x Ha Hx).
Qed.

(** The dict [load_aliases] returns, in either mode, has each alias as a
    key once and never maps an alias to itself. *)
Theorem load_aliases_table (lines : list string) (as_hosts : bool) (m : alias_index) :
  load_aliases lines as_hosts = Ok m ->
  List.NoDup (map fst m) /\ Forall (fun kv => fst kv <> snd kv) m.
Proof.
  unfold load_aliases. apply (fold_m_inv alias_table_ok).
  - intros a x a' Ha Hx. exact (load_line_ok as_hosts a a' x Ha Hx).
  - split; constructor.
Qed.

Lemma load_aliases_table_witness :
  exists m, load_aliases ["WASP-69 b:WASP-69 b,HIP 104863 b"; "HD 1 b:HIP 104863 b"] false = Ok m
  /\ List.NoDup (map fst m) /\ Forall (fun kv => fst kv <> snd kv) m.
Proof.
  eexists. split; [vm_compute; reflexivity|].
  apply (load_aliases_table ["WASP-69 b:WASP-69 b,HIP 104863 b"; "HD 1 b:HIP 104863 b"] false).
  vm_compute. reflexivity.
Defined.

(** ** The JWST alias index of [load_trexolist_table] *)

Lemma dict_get_in {V} (d : pydict V) (k : string) (v : V) :
  dict_get d k = Some v -> In (k, v) d.
Proof.
  induction d as [|[k0 v0] d IH]; simpl; [discriminate|].
  destruct (String.eqb_spec k k0) as [<-|_].
  - intros [= <-]. now left.
  - intros H. right. exact (IH H).
Qed.

Lemma dict_set_in {V} (d : pydict V) (k : string) (v : V) (kv : string * V) :
  In kv (dict_set d k v) -> kv = (k, v) \/ In kv d.
Proof.
  induction d as [|[k0 v0] d IH]; simpl.
  - intros [<-|[]]. now left.
  - destruct (String.eqb_spec k k0) as [<-|_]; simpl.
    + intros [<-|H]; [now left|now right; right].
    + intros [<-|H]; [now right; left|]. destruct (IH H); auto.
Qed.

Lemma str_in_app (x : string) (xs ys : list string) :
  str_in x (xs ++ ys) = str_in x xs || str_in x ys.
Proof. unfold str_in. apply existsb_app. Qed.

Lemma str_in_In (x : string) (xs : list string) : str_in x xs = true <-> In x xs.
Proof.
  unfold str_in. rewrite existsb_exists. split.
  - intros [y [Hy E]]. apply String.eqb_eq in E. now subst.
  - intros H. exists x. split; [exact H|apply String.eqb_refl].
Qed.

Lemma identity_fold_get (J0 : alias_index) (V : list string) (k : string) :
  dict_get (fold_left (fun a name => dict_set a name name) V J0) k
  = if str_in k V then Some k else dict_get J0 k.
Proof.
  induction V as [|x V IH] using rev_ind; [reflexivity|].
  rewrite fold_left_app, str_in_app. simpl.
  rewrite (orb_false_r (String.eqb k x)). destruct (String.eqb_spec x k) as [<-|Hne].
  - rewrite dict_get_set_eq, String.eqb_refl, orb_true_r. reflexivity.
  - rewrite dict_get_set_neq by exact Hne.
    apply String.eqb_neq in Hne. rewrite String.eqb_sym, Hne, orb_false_r. exact IH.
Qed.

Lemma identity_fold_in (J0 : alias_index) (V : list string) (kv : string * string) :
  In kv (fold_left (fun a name => dict_set a name name) V J0) ->
  In kv J0 \/ (fst kv = snd kv /\ In (snd kv) V).
Proof.
  induction V as [|x V IH] using rev_ind; [now left|].
  rewrite fold_left_app. simpl. intros H. apply dict_set_in in H as [->|H].
  - right. simpl. split; [reflexivity|]. apply in_or_app. right. now left.
  - destruct (IH H) as [H'|[E H']]; [now left|]. right. split; [exact E|].
    apply in_or_app. now left.
Qed.

(** [load_trexolist_table] returns a JWST alias index in which every
    name a target resolves to resolves to itself, and its [jwst_targets]
    are exactly these names: the keys that map to themselves. *)
Theorem trexolist_aliases_closed (norm_targets : list string)
    (original_names : pydict (list string)) (host_aliases : alias_index)
    (hosts : list string) (tt : trexolist_table) :
  resolve_trexolist norm_targets original_names host_aliases hosts = Ok tt ->
  (forall t v, dict_get (tt_jwst_aliases tt) t = Some v ->
               dict_get (tt_jwst_aliases tt) v = Some v)
  /\ (forall v, In v (tt_jwst_targets tt) <-> dict_get (tt_jwst_aliases tt) v = Some v).
Proof.
  unfold resolve_trexolist.
  set (hal := fold_left (fun a host => dict_set a host host) hosts host_aliases).
  destruct (fold_left (resolve_target hal) norm_targets ([], [])) as [J0 miss].
  destruct (fold_m (collect_trexo_names
             (fold_left (fun a name => dict_set a name name) (map snd J0) J0))
             [] original_names) as [tn|e]; simpl; [|discriminate].
  intros [= <-]. simpl.
  set (V := map snd J0).
  assert (Hfix : forall v, In v V -> dict_get (fold_left (fun a name => dict_set a name name) V J0) v = Some v).
  { intros v Hv. rewrite identity_fold_get. apply str_in_In in Hv. now rewrite Hv. }
  split.
  - intros t v Ht. rewrite identity_fold_get in Ht.
    destruct (str_in t V) eqn:E.
    + injection Ht as <-. apply Hfix. now apply str_in_In.
    + apply Hfix. apply dict_get_in in Ht. unfold V.
      apply (in_map snd) in Ht. exact Ht.
  - intros v. rewrite np_unique_in. split.
    + intros Hv. apply in_map_iff in Hv as [[k w] [Ew Hkw]]. simpl in Ew. subst w.
      apply Hfix. apply identity_fold_in in Hkw as [Hkw|[_ Hkw]]; [|exact Hkw].
      unfold V. apply (in_map snd) in Hkw. exact Hkw.
    + intros Hv. apply dict_get_in in Hv. apply (in_map snd) in Hv. exact Hv.
Qed.

Lemma trexolist_aliases_closed_witness :
  exists tt,
    resolve_trexolist ["HD 1 A"; "WASP-69"] [("HD 1 A", ["HD 1A"]); ("WASP-69", ["WASP 69"])]
      [("HIP 1", "HD 1")] ["WASP-69"; "HD 1"] = Ok tt
    /\ (forall t v, dict_get (tt_jwst_aliases tt) t = Some v ->
                    dict_get (tt_jwst_aliases tt) v = Some v)
    /\ (forall v, In v (tt_jwst_targets tt) <-> dict_get (tt_jwst_aliases tt) v = Some v).
Proof.
  eexists. split; [vm_compute; reflexivity|].
  apply (trexolist_aliases_closed ["HD 1 A"; "WASP-69"]
           [("HD 1 A", ["HD 1A"]); ("WASP-69", ["WASP 69"])]
           [("HIP 1", "HD 1")] ["WASP-69"; "HD 1"]).
  vm_compute. reflexivity.
Defined.

(** ** The merge of one planet's rows *)

Section MergeOutcome.
Context {F : Type} `{Physics F} {AS : Argsort}.

Lemma duplicates_cons (e : @entry F) (r : list (@entry F)) (name : string) :
  duplicates (e :: r) name
  = if String.eqb (pl_name e) name then e :: duplicates r name else duplicates r name.
Proof.
  unfold duplicates. rewrite filter_cons.
  destruct (String.eqb (pl_name e) name); reflexivity.
Qed.

Lemma index_of_default_some (l : list (@entry F)) (j : nat) :
  index_of_default l = Some j ->
  exists pre d post, l = (pre ++ d :: post)%list /\ length pre = j
    /\ default_flag d = Some 1%Z /\ Forall (fun e => default_flag e <> Some 1%Z) pre.
Proof.
  revert j. induction l as [|e l IH]; intros j Hj; simpl in Hj; [discriminate|].
  destruct (bool_decide (default_flag e = Some 1%Z)) eqn:Ef.
  - apply bool_decide_eq_true in Ef. injection Hj as <-.
    exists [], e, l. repeat split; auto.
  - apply bool_decide_eq_false in Ef.
    destruct (index_of_default l) as [j'|]; simpl in Hj; [|discriminate].
    injection Hj as <-. destruct (IH j' eq_refl) as (pre & d & post & -> & Hl & Hd & Hp).
    exists (e :: pre), d, post. simpl. repeat split; auto.
Qed.

Lemma index_of_default_none (l : list (@entry F)) :
  index_of_default l = None <-> Forall (fun e => default_flag e <> Some 1%Z) l.
Proof.
  induction l as [|e l IH]; simpl; [split; constructor|].
  destruct (bool_decide (default_flag e = Some 1%Z)) eqn:Ef.
  - apply bool_decide_eq_true in Ef. split; [discriminate|].
    intros Hf. inversion Hf. contradiction.
  - apply bool_decide_eq_false in Ef.
    destruct (index_of_default l); simpl; split; intros Hf; try discriminate.
    + inversion Hf as [|? ? _ Hl]. apply IH in Hl. discriminate.
    + constructor; [exact Ef|now apply IH].
    + reflexivity.
Qed.

Lemma duplicates_none (resp : list (@entry F)) (name : string) :
  Forall (fun e => default_flag e <> Some 1%Z) (duplicates resp name)
  <-> Forall (fun e => pl_name e = name -> default_flag e <> Some 1%Z) resp.
Proof.
  induction resp as [|e r IH]; [split; constructor|].
  rewrite duplicates_cons. destruct (String.eqb_spec (pl_name e) name) as [En|En].
  - split; intros Hf; inversion Hf; subst; constructor; try apply IH; auto.
  - rewrite IH. split; intros Hf; [constructor; [intros E; contradiction|exact Hf]|].
    now inversion Hf.
Qed.

Lemma duplicates_split (resp : list (@entry F)) (name : string)
    (pre post : list (@entry F)) (d : @entry F) :
  duplicates resp name = (pre ++ d :: post)%list ->
  Forall (fun e => default_flag e <> Some 1%Z) pre ->
  exists rpre rpost, resp = (rpre ++ d :: rpost)%list /\ pl_name d = name
    /\ Forall (fun e => pl_name e = name -> default_flag e <> Some 1%Z) rpre.
Proof.
  revert pre. induction resp as [|e r IH]; intros pre Hd Hp.
  - destruct pre; discriminate.
  - rewrite duplicates_cons in Hd.
    destruct (String.eqb_spec (pl_name e) name) as [En|En].
    + destruct pre as [|e' pre]; simpl in Hd; injection Hd as He Hd.
      * subst e. exists [], r. repeat split; auto.
      * subst e'. inversion Hp as [|? ? Hf Hp']; subst.
        destruct (IH pre Hd Hp') as (rpre & rpost & -> & Hn & Hr).
        exists (e :: rpre), rpost. repeat split; auto.
    + destruct (IH pre Hd Hp) as (rpre & rpost & -> & Hn & Hr).
      exists (e :: rpre), rpost. repeat split; auto.
Qed.

Lemma complete_entry_name (e : @entry F) : pl_name (complete_entry e) = pl_name e.
Proof.
  unfold complete_entry.
  destruct (solve_rp_rs _ _ _) as [[rade rad] ratror].
  destruct (solve_a_rs _ _ _) as [[orbsmax rad'] ratdor].
  destruct (solve_period_sma _ _ _) as [orbper orbsmax']. reflexivity.
Qed.

Lemma gap_fill_name (base : @entry F) (dups : list (@entry F)) :
  pl_name (gap_fill base dups) = pl_name base.
Proof.
  unfold gap_fill. cbv zeta. rewrite complete_entry_name.
  generalize (rank_planets dups) as r.
  intros r. revert base. induction r as [|j r IH]; intros base; simpl; [reflexivity|].
  rewrite IH. destruct (nth_error dups j); reflexivity.
Qed.

(** Merging the rows of planet [name] fails with [ValueError] when no
    row named [name] has [default_flag] 1 ([def_flags.index(1)] runs
    before any [complete_entry]).  When it returns a record, that record
    is named [name] and keeps every field of the completed first such
    row, its default flag included. *)
Theorem merge_planet_outcome (resp : list (@entry F)) (name : string) :
  (Forall (fun e => pl_name e = name -> default_flag e <> Some 1%Z) resp ->
   merge_planet resp name = Err ValueError)
  /\ (forall m, merge_planet resp name = Ok m ->
        exists pre d post, resp = (pre ++ d :: post)%list
          /\ pl_name d = name /\ default_flag d = Some 1%Z
          /\ Forall (fun e => pl_name e = name -> default_flag e <> Some 1%Z) pre
          /\ keeps (complete_entry d) m
          /\ pl_name m = name /\ default_flag m = Some 1%Z).
Proof.
  unfold merge_planet. set (l := duplicates resp name). split.
  - intros Hf. apply duplicates_none in Hf. fold l in Hf.
    apply index_of_default_none in Hf. now rewrite Hf.
  - destruct (index_of_default l) as [j|] eqn:Ej; [|discriminate].
    destruct (index_of_default_some l j Ej) as (pre & d & post & Hl & Hlen & Hd & Hp).
    assert (Hn : nth_error l j = Some d).
    { rewrite Hl, nth_error_app2 by lia. now rewrite Hlen, Nat.sub_diag. }
    rewrite Hn. intros m [= <-].
    destruct (duplicates_split resp name pre post d Hl Hp) as (rpre & rpost & Hr & Hdn & Hrp).
    exists rpre, d, rpost.
    split; [exact Hr|]. split; [exact Hdn|]. split; [exact Hd|]. split; [exact Hrp|].
    split; [apply gap_fill_keeps|].
    split; [rewrite gap_fill_name, complete_entry_name; exact Hdn|].
    apply (proj1 (proj2 (gap_fill_keeps (complete_entry d) (remove_at j l)))).
    apply (proj1 (proj2 (complete_entry_keeps d))). exact Hd.
Qed.

End MergeOutcome.

Lemma merge_planet_outcome_witness :
  let resp := [row_teff "p b" 0 (Some 5000%Z); row_teff "q b" 1 None;
               row_teff "p b" 1 None] in
  merge_planet resp "q c" = Err ValueError
  /\ exists m, merge_planet resp "p b" = Ok m /\ pl_name m = "p b"
               /\ default_flag m = Some 1%Z /\ st_teff m = Some 5000%Z.
Proof.
  intros resp. split.
  - apply (proj1 (merge_planet_outcome resp "q c")).
    repeat constructor; simpl; discriminate.
  - eexists. split; [vm_compute; reflexivity|].
    destruct (proj2 (merge_planet_outcome resp "p b")
                (gap_fill (complete_entry (row_teff "p b" 1 None))
                          [row_teff "p b" 0 (Some 5000%Z)]))
      as (pre & d & post & _ & _ & _ & _ & _ & Hn & Hf); [vm_compute; reflexivity|].
    split; [exact Hn|]. split; [exact Hf|]. vm_compute. reflexivity.
Defined.

(** ** [complete_entry] *)

Section Complete.
Context {F : Type} `{Physics F}.

(** [complete_entry] only fills gaps: a field set in the row keeps its
    value, and the fields outside its three solvers ([pl_rade], [st_rad],
    [pl_ratror], [pl_orbsmax], [pl_ratdor], [pl_orbper]) are unchanged. *)
Theorem complete_entry_fills_only (e : @entry F) :
  let c := complete_entry e in
  keeps e c
  /\ hostname c = hostname e /\ pl_name c = pl_name e
  /\ default_flag c = default_flag e /\ sy_kmag c = sy_kmag e
  /\ sy_pnum c = sy_pnum e /\ disc_facility c = disc_facility e
  /\ ra c = ra e /\ dec c = dec e /\ st_teff c = st_teff e
  /\ st_logg c = st_logg e /\ st_met c = st_met e /\ st_mass c = st_mass e
  /\ st_age c = st_age e /\ pl_trandur c = pl_trandur e
  /\ pl_masse c = pl_masse e.
Proof.
  intros c. split; [apply complete_entry_keeps|].
  unfold c, complete_entry.
  destruct (solve_rp_rs _ _ _) as [[rade rad] ratror].
  destruct (solve_a_rs _ _ _) as [[orbsmax rad'] ratdor].
  destruct (solve_period_sma _ _ _) as [orbper orbsmax'].
  repeat split.
Qed.

End Complete.

(** ** Round trip of the alias file *)

Lemma readlines_line (x r cur : string) :
  no_line_break x = true ->
  readlines_go (x +:+ String "010" r) cur = (cur +:+ (x +:+ String "010" EmptyString)) :: readlines_go r "".
Proof.
  revert cur. induction x as [|c x IH]; intros cur Hx; simpl.
  - reflexivity.
  - unfold no_line_break in Hx. cbn [str_forall] in Hx.
    apply andb_prop in Hx as [Hc Hx]. apply andb_prop in Hc as [Hc _].
    apply negb_true_iff in Hc. rewrite Hc. rewrite IH by exact Hx.
    now rewrite <- str_app_assoc, str_app_cons, str_app_empty.
Qed.

Lemma no_line_break_app (a b : string) :
  no_line_break (a +:+ b) = no_line_break a && no_line_break b.
Proof.
  unfold no_line_break. induction a as [|c a IH]; [reflexivity|].
  rewrite str_app_cons. cbn [str_forall]. rewrite IH. apply andb_assoc.
Qed.

Lemma no_line_break_join (l : list string) :
  Forall (fun a => no_line_break a = true) l -> no_line_break (py_join "," l) = true.
Proof.
  induction l as [|a [|b l] IH]; intros Hl; [reflexivity| |].
  - now inversion Hl.
  - inversion Hl as [|? ? Ha Hl']; subst. change (py_join "," (a :: b :: l))
      with (a +:+ ("," +:+ py_join "," (b :: l))).
    rewrite !no_line_break_app, Ha, (IH Hl'). reflexivity.
Qed.

Lemma readlines_aliases_file (aka : pydict (list string)) :
  Forall (fun p => alias_entry_ok (fst p) (snd p)) aka ->
  readlines (aliases_file aka) = map (fun p => alias_file_line (fst p) (snd p)) aka.
Proof.
  unfold readlines. induction aka as [|[n l] aka IH]; intros Hok; [reflexivity|].
  inversion Hok as [|? ? [Hc [Hn [Hne Hl]]] Hok']; subst. simpl in *.
  set (X := n +:+ (":" +:+ py_join "," l)).
  assert (HX : alias_file_line n l = X +:+ String "010" EmptyString).
  { unfold alias_file_line, X. now rewrite !str_app_assoc. }
  rewrite HX, <- str_app_assoc, str_app_cons, str_app_empty.
  rewrite readlines_line.
  - rewrite str_app_empty. f_equal. exact (IH Hok').
  - unfold X. rewrite !no_line_break_app, Hn, no_line_break_join; [reflexivity|].
    eapply Forall_impl; [exact Hl|]. simpl. tauto.
Qed.

Lemma list_ascii_app (a b : string) :
  list_ascii_of_string (a +:+ b) = (list_ascii_of_string a ++ list_ascii_of_string b)%list.
Proof. induction a as [|c a IH]; [reflexivity|]. rewrite str_app_cons. simpl. now rewrite IH. Qed.

Lemma string_of_list_app (l1 l2 : list ascii) :
  string_of_list_ascii (l1 ++ l2) = string_of_list_ascii l1 +:+ string_of_list_ascii l2.
Proof. induction l1 as [|c l1 IH]; [reflexivity|]. simpl. now rewrite IH. Qed.

Lemma rev_str_app (a b : string) : rev_str (a +:+ b) = rev_str b +:+ rev_str a.
Proof. unfold rev_str. now rewrite list_ascii_app, rev_app_distr, string_of_list_app. Qed.

Lemma rev_str_involutive (s : string) : rev_str (rev_str s) = s.
Proof.
  unfold rev_str. rewrite list_ascii_of_string_of_list_ascii, rev_involutive.
  apply string_of_list_ascii_of_string.
Qed.

Lemma rev_str_length (s : string) : String.length (rev_str s) = String.length s.
Proof.
  unfold rev_str.
  assert (H1 : forall l, String.length (string_of_list_ascii l) = length l)
    by (induction l; simpl; auto).
  assert (H2 : forall t, length (list_ascii_of_string t) = String.length t)
    by (induction t; simpl; auto).
  now rewrite H1, length_rev, H2.
Qed.

Lemma lstrip_length (s : string) : String.length (lstrip s) <= String.length s.
Proof.
  induction s as [|c s IH]; simpl; [lia|]. destruct (is_space c); simpl; lia.
Qed.

Lemma lstrip_same_length (s : string) :
  String.length (lstrip s) = String.length s -> lstrip s = s.
Proof.
  destruct s as [|c s]; simpl; [reflexivity|]. destruct (is_space c); [|reflexivity].
  pose proof (lstrip_length s). lia.
Qed.

Lemma lstrip_app (a b : string) : lstrip a = a -> a <> "" -> lstrip (a +:+ b) = a +:+ b.
Proof.
  destruct a as [|c a]; intros Ha Hne; [congruence|]. rewrite str_app_cons.
  simpl in *. destruct (is_space c); [|reflexivity].
  pose proof (lstrip_length a). rewrite Ha in *. simpl in *. lia.
Qed.

Lemma strip_fixed (s : string) :
  strip s = s -> lstrip s = s /\ lstrip (rev_str s) = rev_str s.
Proof.
  unfold strip. intros Hs.
  assert (Hl : lstrip s = s).
  { apply lstrip_same_length. apply Nat.le_antisymm; [apply lstrip_length|].
    rewrite <- Hs at 1. rewrite rev_str_length.
    etransitivity; [apply lstrip_length|]. now rewrite rev_str_length. }
  split; [exact Hl|]. rewrite Hl in Hs.
  rewrite <- Hs at 2. now rewrite rev_str_involutive.
Qed.

Lemma lstrip_comma (t : string) : lstrip ("," +:+ t) = "," +:+ t.
Proof. reflexivity. Qed.

Lemma lstrip_join (l : list string) :
  Forall (fun a => lstrip a = a) l -> lstrip (py_join "," l) = py_join "," l.
Proof.
  induction l as [|a [|b l] IH]; intros Hl; [reflexivity| |].
  - now inversion Hl.
  - inversion Hl as [|? ? Ha _]; subst.
    change (py_join "," (a :: b :: l)) with (a +:+ ("," +:+ py_join "," (b :: l))).
    destruct (String.eqb_spec a "") as [->|Hne]; [apply lstrip_comma|].
    now apply lstrip_app.
Qed.

Lemma lstrip_rev_join (l : list string) :
  Forall (fun a => lstrip (rev_str a) = rev_str a) l ->
  lstrip (rev_str (py_join "," l)) = rev_str (py_join "," l).
Proof.
  induction l as [|a [|b l] IH]; intros Hl; [reflexivity| |].
  - now inversion Hl.
  - inversion Hl as [|? ? Ha Hl']; subst.
    change (py_join "," (a :: b :: l)) with (a +:+ ("," +:+ py_join "," (b :: l))).
    rewrite !rev_str_app. change (rev_str ",") with ",".
    rewrite <- str_app_assoc.
    specialize (IH Hl'). set (R := rev_str (py_join "," (b :: l))) in *.
    destruct (String.eqb_spec R "") as [->|Hne].
    + rewrite str_app_empty. apply lstrip_comma.
    + now apply lstrip_app.
Qed.

Lemma strip_join_nl (l : list string) :
  Forall (fun a => plain_alias a = true) l ->
  strip (py_join "," l +:+ String "010" EmptyString) = py_join "," l.
Proof.
  intros Hl.
  assert (Hs : Forall (fun a => strip a = a) l).
  { eapply Forall_impl; [exact Hl|]. intros a Ha. unfold plain_alias in Ha.
    apply andb_prop in Ha as [Ha _]. now apply String.eqb_eq. }
  assert (HL : lstrip (py_join "," l) = py_join "," l).
  { apply lstrip_join. eapply Forall_impl; [exact Hs|]. intros a Ha.
    exact (proj1 (strip_fixed a Ha)). }
  assert (HR : lstrip (rev_str (py_join "," l)) = rev_str (py_join "," l)).
  { apply lstrip_rev_join. eapply Forall_impl; [exact Hs|]. intros a Ha.
    exact (proj2 (strip_fixed a Ha)). }
  set (J := py_join "," l) in *. unfold strip.
  destruct (String.eqb_spec J "") as [->|Hne]; [reflexivity|].
  rewrite lstrip_app by assumption. rewrite rev_str_app.
  change (rev_str (String "010" EmptyString)) with (String "010" EmptyString).
  rewrite str_app_cons, str_app_empty. cbn [lstrip].
  change (is_space "010") with true. cbv iota.
  rewrite HR. apply rev_str_involutive.
Qed.

Lemma split_go_sep (a r cur : string) :
  str_forall (fun c => negb (Ascii.eqb c ",")) a = true ->
  split_go "," (a +:+ ("," +:+ r)) cur = (cur +:+ a) :: split_go "," r "".
Proof.
  revert cur. induction a as [|c a IH]; intros cur Ha.
  - rewrite !str_app_empty, str_app_nil. reflexivity.
  - cbn [str_forall] in Ha. apply andb_prop in Ha as [Hc Ha].
    apply negb_true_iff in Hc. rewrite str_app_cons. cbn [split_go]. rewrite Hc.
    rewrite IH by exact Ha. now rewrite <- str_app_assoc, str_app_cons, str_app_empty.
Qed.

Lemma split_join (l : list string) :
  l <> [] -> Forall (fun a => str_forall (fun c => negb (Ascii.eqb c ",")) a = true) l ->
  py_split (py_join "," l) "," = l.
Proof.
  unfold py_split. induction l as [|a [|b l] IH]; intros Hne Hl; [congruence| |].
  - inversion Hl as [|? ? Ha _]; subst. simpl py_join.
    rewrite split_go_no_sep by exact Ha. now rewrite str_app_empty.
  - inversion Hl as [|? ? Ha Hl']; subst.
    change (py_join "," (a :: b :: l)) with (a +:+ ("," +:+ py_join "," (b :: l))).
    rewrite split_go_sep by exact Ha. rewrite str_app_empty.
    f_equal. apply IH; [discriminate|exact Hl'].
Qed.

Lemma load_line_entry (acc : alias_index) (n : string) (l : list string) :
  alias_entry_ok n l ->
  load_line false acc (alias_file_line n l) = fold_m (add_alias false n) acc l.
Proof.
  intros [Hc [_ [Hne Hl]]]. unfold load_line, alias_file_line.
  rewrite (index_colon n _ Hc). simpl.
  rewrite slice_to_colon, slice_from_colon, strip_join_nl.
  - rewrite split_join; [reflexivity|exact Hne|].
    eapply Forall_impl; [exact Hl|]. intros a [Ha _].
    unfold plain_alias in Ha. now apply andb_prop in Ha as [_ Ha].
  - eapply Forall_impl; [exact Hl|]. intros a [Ha _]. exact Ha.
Qed.

Lemma dict_get_app {V} (d1 d2 : pydict V) (k : string) :
  dict_get (d1 ++ d2)%list k = match dict_get d1 k with Some v => Some v | None => dict_get d2 k end.
Proof.
  induction d1 as [|[k0 v0] d1 IH]; simpl; [reflexivity|].
  destruct (String.eqb k k0); [reflexivity|exact IH].
Qed.

Lemma dict_set_absent {V} (d : pydict V) (k : string) (v : V) :
  dict_get d k = None -> dict_set d k v = (d ++ [(k, v)])%list.
Proof.
  induction d as [|[k0 v0] d IH]; simpl; [reflexivity|].
  rewrite String.eqb_sym. destruct (String.eqb k0 k); [discriminate|].
  intros H. now rewrite IH.
Qed.

Lemma dict_get_none {V} (d : pydict V) (k : string) :
  dict_get d k = None <-> ~ In k (map fst d).
Proof.
  induction d as [|[k0 v0] d IH]; simpl; [tauto|].
  destruct (String.eqb_spec k k0) as [->|Hne].
  - split; [discriminate|]. intros H. exfalso. apply H. now left.
  - rewrite IH. intuition congruence.
Qed.

Lemma dict_get_nodup {V} (d : pydict V) (k : string) (v : V) :
  List.NoDup (map fst d) -> In (k, v) d -> dict_get d k = Some v.
Proof.
  induction d as [|[k0 v0] d IH]; intros Hd Hin; [destruct Hin|].
  inversion Hd as [|? ? Hn Hd']; subst. simpl.
  destruct Hin as [[= <- <-]|Hin]; [now rewrite String.eqb_refl|].
  destruct (String.eqb_spec k k0) as [->|_]; [|exact (IH Hd' Hin)].
  exfalso. apply Hn. apply (in_map fst) in Hin. exact Hin.
Qed.

Lemma nodup_app_disjoint {A} (l1 l2 : list A) (a : A) :
  List.NoDup (l1 ++ l2) -> In a l1 -> In a l2 -> False.
Proof.
  induction l1 as [|b l1 IH]; intros Hd H1 H2; [destruct H1|].
  inversion Hd as [|? ? Hn Hd']; subst. destruct H1 as [->|H1].
  - apply Hn. apply in_or_app. now right.
  - exact (IH Hd' H1 H2).
Qed.

Lemma map_pair_fst (n : string) (l : list string) :
  map fst (map (fun a => (a, n)) l) = l.
Proof. rewrite map_map. apply map_id. Qed.

Lemma add_alias_fresh (n : string) (acc : alias_index) (l : list string) :
  List.NoDup l -> Forall (fun a => a <> n /\ dict_get acc a = None) l ->
  fold_m (add_alias false n) acc l = Ok (acc ++ map (fun a => (a, n)) l)%list.
Proof.
  revert acc. induction l as [|a l IH]; intros acc Hd Hl; simpl.
  - now rewrite app_nil_r.
  - inversion Hd as [|? ? Hn Hd']; subst. inversion Hl as [|? ? [Han Ha] Hl']; subst.
    unfold add_alias. simpl. apply String.eqb_neq in Han. rewrite Han. simpl.
    rewrite dict_set_absent by exact Ha.
    rewrite IH; [now rewrite <- app_assoc|exact Hd'|].
    apply List.Forall_forall. intros b Hb.
    rewrite List.Forall_forall in Hl'. destruct (Hl' b Hb) as [Hbn Hbg].
    split; [exact Hbn|]. rewrite dict_get_app, Hbg. simpl.
    destruct (String.eqb_spec b a) as [->|_]; [contradiction|reflexivity].
Qed.

Lemma load_alias_file (aka : pydict (list string)) (acc : alias_index) :
  List.NoDup (concat (map snd aka)) ->
  Forall (fun p => alias_entry_ok (fst p) (snd p)) aka ->
  Forall (fun a => dict_get acc a = None) (concat (map snd aka)) ->
  fold_m (load_line false) acc (map (fun p => alias_file_line (fst p) (snd p)) aka)
  = Ok (acc ++ alias_pairs aka)%list.
Proof.
  revert acc. induction aka as [|[n l] aka IH]; intros acc Hd Hok Hf; simpl.
  - now rewrite app_nil_r.
  - inversion Hok as [|? ? Hnl Hok']; subst. simpl in Hd, Hf, Hnl.
    rewrite (load_line_entry acc n l Hnl).
    rewrite add_alias_fresh.
    + simpl. rewrite IH.
      * now rewrite <- app_assoc.
      * exact (NoDup_app_remove_l _ _ Hd).
      * exact Hok'.
      * apply List.Forall_forall. intros a Ha. rewrite dict_get_app.
        rewrite List.Forall_forall in Hf. rewrite (Hf a (in_or_app _ _ _ (or_intror Ha))).
        apply dict_get_none. rewrite map_pair_fst. intros Hin.
        exact (nodup_app_disjoint _ _ a Hd Hin Ha).
    + exact (NoDup_app_remove_r _ _ Hd).
    + destruct Hnl as [_ [_ [_ Hl]]]. apply List.Forall_forall. intros a Ha.
      rewrite List.Forall_forall in Hl, Hf. split; [exact (proj2 (proj2 (Hl a Ha)))|].
      apply Hf. apply in_or_app. now left.
Qed.

Lemma dict_set_last {V} (d : pydict V) (k : string) (v v' : V) :
  dict_get d k = None -> dict_set (d ++ [(k, v)])%list k v' = (d ++ [(k, v')])%list.
Proof.
  induction d as [|[k0 v0] d IH]; simpl; [now rewrite String.eqb_refl|].
  destruct (String.eqb_spec k k0) as [_|_]; [discriminate|]. intros H. now rewrite IH.
Qed.

Lemma invert_block (acc : pydict (list string)) (n : string) (l : list string) :
  ~ In n (map fst acc) -> l <> [] ->
  fold_left invert_step (map (fun a => (a, n)) l) acc = (acc ++ [(n, l)])%list.
Proof.
  intros Hn. induction l as [|x l IH] using rev_ind; intros Hne; [congruence|].
  rewrite map_app, fold_left_app. simpl.
  destruct l as [|y l].
  - simpl. apply dict_get_none in Hn. rewrite Hn. now apply dict_set_absent.
  - rewrite IH by discriminate. rewrite dict_get_app.
    apply dict_get_none in Hn as Hn'. rewrite Hn'. simpl. rewrite String.eqb_refl.
    now apply dict_set_last.
Qed.

Lemma invert_alias_pairs (aka : pydict (list string)) :
  List.NoDup (map fst aka) -> Forall (fun p => snd p <> []) aka ->
  invert_aliases (alias_pairs aka) = aka.
Proof.
  unfold invert_aliases, alias_pairs.
  induction aka as [|[n l] aka IH] using rev_ind; intros Hd Hne; [reflexivity|].
  rewrite map_app, concat_app, fold_left_app. simpl. rewrite app_nil_r.
  rewrite map_app in Hd. apply Forall_app in Hne as [Hne Hl].
  rewrite IH by (exact (NoDup_app_remove_r _ _ Hd) || exact Hne).
  apply invert_block.
  - intros Hin. apply (nodup_app_disjoint _ _ n Hd Hin). now left.
  - now inversion Hl.
Qed.

(** The alias file that [curate_aliases] writes reads back through
    [load_aliases()] as the table it was written from: when names are
    distinct, no alias is listed twice, names hold no [':'], aliases no
    [','] nor surrounding white space, no entry has a line break, and
    every name has an alias other than itself, then each alias maps to
    its name and inverting the loaded index gives back the table. *)
Theorem aliases_file_round_trip (aka : pydict (list string)) :
  List.NoDup (map fst aka) -> List.NoDup (concat (map snd aka)) ->
  Forall (fun p => alias_entry_ok (fst p) (snd p)) aka ->
  exists m, load_aliases (readlines (aliases_file aka)) false = Ok m
    /\ invert_aliases m = aka
    /\ (forall name aliases a, In (name, aliases) aka -> In a aliases ->
         dict_get m a = Some name).
Proof.
  intros Hn Hd Hok. exists (alias_pairs aka).
  assert (Hload : load_aliases (readlines (aliases_file aka)) false = Ok (alias_pairs aka)).
  { unfold load_aliases. rewrite readlines_aliases_file by exact Hok.
    rewrite load_alias_file; [reflexivity|exact Hd|exact Hok|].
    apply List.Forall_forall. intros; reflexivity. }
  split; [exact Hload|]. split.
  - apply invert_alias_pairs; [exact Hn|].
    eapply Forall_impl; [exact Hok|]. intros p [_ [_ [H _]]]. exact H.
  - intros name aliases a Hin Ha. apply dict_get_nodup.
    + unfold alias_pairs. rewrite concat_map, map_map.
      erewrite map_ext; [exact Hd|]. intros p. apply map_pair_fst.
    + unfold alias_pairs. apply in_concat. exists (map (fun a => (a, name)) aliases).
      split; [apply (in_map (fun p => map (fun a => (a, fst p)) (snd p)) _ _ Hin)|].
      exact (in_map (fun x => (x, name)) aliases a Ha).
Qed.

Lemma aliases_file_round_trip_witness :
  exists m, load_aliases (readlines (aliases_file
              [("WASP-69 b", ["HIP 104863 b"; "BD-05 5653 b"]); ("HD 1 b", ["HIP 1 b"])])) false = Ok m
    /\ invert_aliases m = [("WASP-69 b", ["HIP 104863 b"; "BD-05 5653 b"]); ("HD 1 b", ["HIP 1 b"])]
    /\ (forall name aliases a,
         In (name, aliases) [("WASP-69 b", ["HIP 104863 b"; "BD-05 5653 b"]); ("HD 1 b", ["HIP 1 b"])] ->
         In a aliases -> dict_get m a = Some name).
Proof.
  apply aliases_file_round_trip.
  - repeat constructor; simpl; intuition discriminate.
  - repeat constructor; simpl; intuition discriminate.
  - repeat constructor; simpl; try reflexivity; discriminate.
Defined.

(** ** The alias lists of [Catalog] *)

Section CatalogAliases.
Context {F : Type}.
Local Open Scope list_scope.

Lemma list_index_in (xs : list string) (x : string) :
  In x xs -> exists j, list_index xs x = Ok j /\ j < length xs.
Proof.
  induction xs as [|y xs IH]; intros Hin; [destruct Hin|]. simpl.
  destruct (String.eqb_spec y x) as [_|Hne]; [exists 0; split; [reflexivity|lia]|].
  destruct Hin as [->|Hin]; [contradiction|].
  destruct (IH Hin) as [j [Hj Hl]]. rewrite Hj. exists (S j). split; [reflexivity|lia].
Qed.

Lemma list_getitem_lt {A} (xs : list A) (j : nat) :
  j < length xs -> exists v, list_getitem xs j = Ok v.
Proof.
  intros Hj. unfold list_getitem. destruct (nth_error xs j) eqn:E; [eauto|].
  apply nth_error_None in E. lia.
Qed.

Lemma assemble_jwst (nea_data tess_data : list (@target_row F)) (jwst_targets : list string) :
  Forall (fun p => is_jwst p = true -> is_transiting p = true /\ In (p_host p) jwst_targets)
    (assemble nea_data tess_data jwst_targets).
Proof.
  unfold assemble. apply Forall_map. apply List.Forall_forall. intros r _. simpl.
  intros Hj. apply andb_prop in Hj as [Hh Ht]. split; [exact Ht|].
  now apply str_in_In.
Qed.

Lemma catalog_aliases_go (planets_aka : pydict (list string)) (jwst_targets : list string)
    (trexo_ra trexo_dec : list string) (ps : list planet_record) (acc : @alias_lists) :
  length jwst_targets <= length trexo_ra -> length jwst_targets <= length trexo_dec ->
  Forall (fun p => is_jwst p = true -> is_transiting p = true /\ In (p_host p) jwst_targets) ps ->
  sublist (jwst_aliases acc) (transit_aliases acc) ->
  exists al, fold_m (alias_step planets_aka jwst_targets trexo_ra trexo_dec) acc ps = Ok al
    /\ Permutation (transit_aliases al ++ non_transit_aliases al)
                   (transit_aliases acc ++ non_transit_aliases acc ++ concat (map (aliases_of planets_aka) ps))
    /\ Permutation (confirmed_aliases al ++ candidate_aliases al)
                   (confirmed_aliases acc ++ candidate_aliases acc ++ concat (map (aliases_of planets_aka) ps))
    /\ sublist (jwst_aliases al) (transit_aliases al)
    /\ map (fun c => negb (is_none c)) (trexo_coords al)
       = map (fun c => negb (is_none c)) (trexo_coords acc)
         ++ map (fun p => is_jwst p && negb (is_none (dict_get planets_aka (p_planet p)))) ps.
Proof.
  intros Hra Hdec. revert acc. induction ps as [|p ps IH]; intros acc Hps Hsub.
  - exists acc. simpl. rewrite !app_nil_r. split_and!; auto.
  - inversion Hps as [|? ? Hp Hps']; subst. simpl fold_m.
    assert (Hstep : exists acc', alias_step planets_aka jwst_targets trexo_ra trexo_dec acc p = Ok acc'
      /\ Permutation (transit_aliases acc' ++ non_transit_aliases acc')
                     (transit_aliases acc ++ non_transit_aliases acc ++ aliases_of planets_aka p)
      /\ Permutation (confirmed_aliases acc' ++ candidate_aliases acc')
                     (confirmed_aliases acc ++ candidate_aliases acc ++ aliases_of planets_aka p)
      /\ sublist (jwst_aliases acc') (transit_aliases acc')
      /\ map (fun c => negb (is_none c)) (trexo_coords acc')
         = map (fun c => negb (is_none c)) (trexo_coords acc)
           ++ [is_jwst p && negb (is_none (dict_get planets_aka (p_planet p)))]).
    { unfold alias_step, aliases_of.
      destruct (dict_get planets_aka (p_planet p)) as [aliases|] eqn:Ea.
      - assert (Hc : exists coord, (if is_jwst p then
                   j ← list_index jwst_targets (p_host p);
                   ra_j ← list_getitem trexo_ra j;
                   dec_j ← list_getitem trexo_dec j;
                   Ok (Some (ra_j, dec_j))
                 else Ok None) = Ok coord /\ negb (is_none coord) = is_jwst p).
        { destruct (is_jwst p) eqn:Ej; [|exists None; split; reflexivity].
          destruct (Hp eq_refl) as [_ Hin].
          destruct (list_index_in _ _ Hin) as [j [Hj Hl]]. rewrite Hj. simpl.
          destruct (list_getitem_lt trexo_ra j) as [r Hr]; [lia|].
          destruct (list_getitem_lt trexo_dec j) as [d Hd]; [lia|].
          rewrite Hr, Hd. exists (Some (r, d)). split; reflexivity. }
        destruct Hc as [coord [Hc Hcj]]. rewrite Hc. simpl.
        eexists. split; [reflexivity|]. simpl. split_and!.
        + destruct (is_transiting p); simpl; rewrite <- ?app_assoc; [|reflexivity].
          apply Permutation_app_head. apply Permutation_app_comm.
        + destruct (is_confirmed p); simpl; rewrite <- ?app_assoc; [|reflexivity].
          apply Permutation_app_head. apply Permutation_app_comm.
        + destruct (is_jwst p) eqn:Ej.
          * destruct (Hp eq_refl) as [Ht _]. rewrite Ht.
            apply sublist_app; [exact Hsub|reflexivity].
          * destruct (is_transiting p); [|exact Hsub].
            rewrite <- (app_nil_r (jwst_aliases acc)).
            apply sublist_app; [exact Hsub|apply sublist_nil_l].
        + rewrite map_app. simpl. rewrite Hcj, andb_true_r. reflexivity.
      - eexists. split; [reflexivity|]. simpl. rewrite !app_nil_r. split_and!;
          [reflexivity|reflexivity|exact Hsub|].
        rewrite map_app. simpl. now rewrite andb_false_r. }
    destruct Hstep as (acc' & Hst & Q1 & Q2 & Qs & Qc). rewrite Hst. simpl.
    destruct (IH acc' Hps' Qs) as (al & Hal & P1 & P2 & Hs & Hco).
    exists al. split; [exact Hal|]. split_and!.
    + etransitivity; [exact P1|]. rewrite app_assoc.
      etransitivity; [apply Permutation_app_tail; exact Q1|].
      simpl. rewrite <- !app_assoc. reflexivity.
    + etransitivity; [exact P2|]. rewrite app_assoc.
      etransitivity; [apply Permutation_app_tail; exact Q2|].
      simpl. rewrite <- !app_assoc. reflexivity.
    + exact Hs.
    + rewrite Hco, Qc. simpl. now rewrite <- app_assoc.
Qed.

(** The alias lists of [Catalog]: when the JWST coordinate columns are
    at least as long as [jwst_targets], the loop raises no error; the
    transit and non-transit lists, as the confirmed and candidate lists,
    split the aliases of all planets between them; the JWST aliases are
    a sublist of the transit aliases; and a planet gets JWST coordinates
    exactly when it is a JWST target with aliases. *)
Theorem catalog_alias_lists (nea_data tess_data : list (@target_row F))
    (jwst_targets trexo_ra trexo_dec : list string) (planets_aka : pydict (list string)) :
  length jwst_targets <= length trexo_ra -> length jwst_targets <= length trexo_dec ->
  let planets := assemble nea_data tess_data jwst_targets in
  let all := concat (map (aliases_of planets_aka) planets) in
  exists al, catalog_aliases planets_aka jwst_targets trexo_ra trexo_dec planets = Ok al
    /\ Permutation (transit_aliases al ++ non_transit_aliases al) all
    /\ Permutation (confirmed_aliases al ++ candidate_aliases al) all
    /\ sublist (jwst_aliases al) (transit_aliases al)
    /\ map (fun c => negb (is_none c)) (trexo_coords al)
       = map (fun p => is_jwst p && negb (is_none (dict_get planets_aka (p_planet p)))) planets.
Proof.
  intros Hra Hdec planets all.
  edestruct (catalog_aliases_go planets_aka jwst_targets trexo_ra trexo_dec planets
               {| jwst_aliases := []; transit_aliases := []; non_transit_aliases := [];
                  confirmed_aliases := []; candidate_aliases := []; trexo_coords := [] |})
    as (al & Hal & P1 & P2 & Hs & Hco);
    [exact Hra|exact Hdec|apply assemble_jwst|apply sublist_nil_l|].
  exists al. split; [exact Hal|]. simpl in P1, P2, Hco. split_and!; auto.
Qed.

End CatalogAliases.

Lemma catalog_alias_lists_witness :
  let nea := [{| planet := "WASP-69 b"; host := "WASP-69"; tr_dur := Some 1%Z |}] in
  let tess := [{| planet := "TOI-1 b"; host := "TOI-1"; tr_dur := None |}] in
  let aka := [("WASP-69 b", ["HIP 104863 b"]); ("TOI-1 b", ["TIC 1 b"])] in
  length ["WASP-69"] <= length ["21:00:06.1"] /\ length ["WASP-69"] <= length ["-05:05:40"]
  /\ let planets := assemble nea tess ["WASP-69"] in
     let all := concat (map (aliases_of aka) planets) in
     exists al, catalog_aliases aka ["WASP-69"] ["21:00:06.1"] ["-05:05:40"] planets = Ok al
       /\ Permutation (transit_aliases al ++ non_transit_aliases al)%list all
       /\ Permutation (confirmed_aliases al ++ candidate_aliases al)%list all
       /\ sublist (jwst_aliases al) (transit_aliases al)
       /\ map (fun c => negb (is_none c)) (trexo_coords al)
          = map (fun p => is_jwst p && negb (is_none (dict_get aka (p_planet p)))) planets.
Proof.
  intros nea tess aka. split; [simpl; lia|]. split; [simpl; lia|].
  exact (catalog_alias_lists nea tess ["WASP-69"] ["21:00:06.1"] ["-05:05:40"] aka
           (le_n 1) (le_n 1)).
Defined.

(** ** Resolving a JWST target to a catalog host *)

Lemma fold_choose_host (hosts aka : list string) (t0 : string) :
  let r := fold_left (fun t' h => if str_in h hosts then h else t') aka t0 in
  (In r aka /\ In r hosts) \/ (r = t0 /\ forall h, In h aka -> ~ In h hosts).
Proof.
  revert t0. induction aka as [|h aka IH] using rev_ind; intros t0; simpl.
  - right. split; [reflexivity|]. intros h [].
  - rewrite fold_left_app. simpl.
    destruct (str_in h hosts) eqn:Eh.
    + left. split; [apply in_or_app; right; now left|]. now apply str_in_In.
    + destruct (IH t0) as [[Hin Hh]|[Heq Hno]].
      * left. split; [apply in_or_app; now left|exact Hh].
      * right. split; [exact Heq|]. intros h' Hh'. apply in_app_or in Hh' as [Hh'|[<-|[]]].
        -- exact (Hno h' Hh').
        -- intros Hin. apply str_in_In in Hin. congruence.
Qed.

(** A JWST target that resolves (lines 80-87) ends as a catalog host
    listed in the host aliases under the target's resolved name, or
    as that name itself: the name is a host, or none of the names listed
    under it is a host. *)
Theorem resolve_jwst_target_host (host_aliases : alias_index) (hosts : list string)
    (t r : string) :
  resolve_jwst_target host_aliases (invert_aliases host_aliases) hosts t = Ok r ->
  let t' := match dict_get host_aliases t with Some v => v | None => t end in
  (In r hosts /\ (r = t' \/ In (r, t') host_aliases))
  \/ (r = t' /\ forall h, In (h, t') host_aliases -> ~ In h hosts).
Proof.
  unfold resolve_jwst_target. cbv zeta.
  set (t' := match dict_get host_aliases t with Some v => v | None => t end).
  destruct (str_in t' hosts) eqn:Et.
  - intros [= <-]. left. split; [now apply str_in_In|now left].
  - unfold dict_getitem. rewrite invert_aliases_groups.
    set (aka := map fst (List.filter (fun kv => String.eqb (snd kv) t') host_aliases)).
    assert (Haka : forall h, In h aka <-> In (h, t') host_aliases).
    { intros h. unfold aka. rewrite in_map_iff. split.
      - intros [[k v] [Hk Hin]]. simpl in Hk. subst k.
        apply filter_In in Hin as [Hin Hv]. simpl in Hv.
        apply String.eqb_eq in Hv. now subst v.
      - intros Hin. exists (h, t'). split; [reflexivity|].
        apply filter_In. split; [exact Hin|]. apply String.eqb_refl. }
    clearbody aka. destruct aka as [|a0 aka0]; [discriminate|]. simpl.
    intros [= <-].
    destruct (fold_choose_host hosts (a0 :: aka0) t') as [[Hin Hh]|[Heq Hno]].
    + left. split; [exact Hh|]. right. now apply Haka.
    + right. split; [exact Heq|]. intros h Hh. apply Hno. now apply Haka.
Qed.

Lemma resolve_jwst_target_host_witness :
  resolve_jwst_target [("HAT-P-1", "HD 1"); ("BD 1", "HD 1")]
    (invert_aliases [("HAT-P-1", "HD 1"); ("BD 1", "HD 1")]) ["HAT-P-1"; "WASP-1"] "HD 1"
  = Ok "HAT-P-1"
  /\ ((In "HAT-P-1" ["HAT-P-1"; "WASP-1"]
       /\ ("HAT-P-1" = "HD 1" \/ In ("HAT-P-1", "HD 1") [("HAT-P-1", "HD 1"); ("BD 1", "HD 1")]))
      \/ ("HAT-P-1" = "HD 1"
          /\ forall h, In (h, "HD 1") [("HAT-P-1", "HD 1"); ("BD 1", "HD 1")] ->
                       ~ In h ["HAT-P-1"; "WASP-1"])).
Proof.
  split; [reflexivity|].
  exact (resolve_jwst_target_host [("HAT-P-1", "HD 1"); ("BD 1", "HD 1")]
           ["HAT-P-1"; "WASP-1"] "HD 1" "HAT-P-1" eq_refl).
Defined.

(** ** The interactive target search *)

Lemma list_index_first {F} (targets : list (@target_row F)) (x : string) :
  In x (map planet targets) ->
  exists pre t post, targets = (pre ++ t :: post)%list /\ planet t = x
    /\ ~ In x (map planet pre) /\ list_index (map planet targets) x = Ok (length pre).
Proof.
  induction targets as [|t0 targets IH]; simpl; [intros []|].
  destruct (String.eqb (planet t0) x) eqn:E.
  - intros _. apply String.eqb_eq in E.
    exists [], t0, targets. simpl. split_and!; auto.
  - intros [Hx|Hx]; [apply String.eqb_neq in E; contradiction|].
    destruct (IH Hx) as (pre & t & post & -> & Ht & Hpre & Hj).
    exists (t0 :: pre), t, post. simpl. rewrite Hj. split_and!; auto.
    intros [H|H]; [apply String.eqb_neq in E; contradiction|contradiction].
Qed.

(** [find_target] with the name entered at the prompt returns the first
    target carrying that planet name; when no target carries it, the
    function fails with a [NameError] (the unbound local [target]). *)
Theorem find_target_first {F} (targets : list (@target_row F)) (entered : string) :
  (~ In entered (map planet targets) /\ find_target targets entered = Err NameError)
  \/ (exists pre t post, targets = (pre ++ t :: post)%list /\ planet t = entered
        /\ ~ In entered (map planet pre) /\ find_target targets entered = Ok t).
Proof.
  unfold find_target. cbv zeta.
  destruct (str_in entered (map planet targets)) eqn:E.
  - right. apply str_in_In in E.
    destruct (list_index_first targets entered E) as (pre & t & post & Ht & Hp & Hpre & Hj).
    exists pre, t, post. split_and!; auto.
    rewrite Hj. simpl. unfold list_getitem. rewrite Ht.
    rewrite nth_error_app2 by lia. rewrite Nat.sub_diag. reflexivity.
  - left. split; [|reflexivity]. intros Hin. apply str_in_In in Hin. congruence.
Qed.

(** ** Reading a target table *)

Lemma result_bind_ok {A B} (m : result A) (k : A -> result B) (r : B) :
  (x ← m; k x) = Ok r -> exists x, m = Ok x /\ k x = Ok r.
Proof. destruct m as [a|e]; simpl; [eauto|discriminate]. Qed.

Lemma startswith_host_planet (l : string) :
  startswith l ">" = true -> startswith l " " = false.
Proof.
  unfold startswith. destruct l as [|c l]; [discriminate|].
  destruct (Ascii.ascii_dec ">" c) as [<-|n]; [intros _; reflexivity|].
  cbn [String.prefix]. destruct (Ascii.ascii_dec ">" c); [contradiction|discriminate].
Qed.

Lemma load_targets_step_ok {F} (to_float : string -> option F)
    (st : option (@star F)) (l : string) x :
  load_targets_step to_float (st, []) l = Ok x ->
  startswith l " " = false /\ exists st', x = (st', []).
Proof.
  unfold load_targets_step. simpl.
  destruct (startswith l ">") eqn:E1; [|destruct (startswith l " ") eqn:E2].
  - intros H. apply result_bind_ok in H as [vals [_ H]].
    repeat (destruct vals as [|? vals]; try discriminate H).
    injection H as <-. split; [exact (startswith_host_planet l E1)|]. eexists; reflexivity.
  - intros H. apply result_bind_ok in H as [vals [_ H]].
    repeat (destruct vals as [|? vals]; try discriminate H).
  - intros [= <-]. split; [reflexivity|]. eexists; reflexivity.
Qed.

Lemma load_targets_fold_ok {F} (to_float : string -> option F) (ls : list string) :
  forall (st : option (@star F)) r,
  fold_m (load_targets_step to_float) (st, []) ls = Ok r ->
  snd r = [] /\ Forall (fun l => startswith l " " = false) ls.
Proof.
  induction ls as [|l ls IH]; intros st r H; simpl in H.
  - injection H as <-. split; [reflexivity|constructor].
  - apply result_bind_ok in H as [x [Hx H]].
    destruct (load_targets_step_ok to_float st l x Hx) as [Hl [st' ->]].
    destruct (IH st' r H) as [Hr Hls]. split; [exact Hr|constructor; assumption].
Qed.

(** [load_targets] never returns a target: on a table it reads, it
    returns the empty list, and no line kept after the comments is a
    planet line; the first planet line whose six values convert, reached
    with every line above it read, makes it raise [NameError] (the call
    to the undefined [Target]). *)
Theorem load_targets_no_planet {F} (to_float : string -> option F) (lines : list string) :
  let kept := List.filter (fun line => negb (startswith (strip line) "#")) lines in
  (forall ts, load_targets to_float lines = Ok ts ->
     ts = [] /\ Forall (fun l => startswith l " " = false) kept)
  /\ (forall pre l post st vals,
        kept = (pre ++ l :: post)%list ->
        fold_m (load_targets_step to_float) (None, []) pre = Ok st ->
        startswith l ">" = false -> startswith l " " = true ->
        to_floats to_float (line_values l) = Ok vals -> length vals = 6 ->
        load_targets to_float lines = Err NameError).
Proof.
  intros kept. split.
  - unfold load_targets. fold kept. intros ts H.
    apply result_bind_ok in H as [r [H [= <-]]].
    exact (load_targets_fold_ok to_float kept None r H).
  - intros pre l post st vals Hk Hpre E1 E2 Hv Hn.
    unfold load_targets. fold kept. rewrite Hk, fold_m_app, Hpre.
    cbn [mbind result_bind fold_m].
    assert (Hs : load_targets_step to_float st l = Err NameError).
    { unfold load_targets_step. rewrite E1, E2, Hv. cbn [mbind result_bind].
      repeat (destruct vals as [|? vals]; try discriminate Hn). reflexivity. }
    now rewrite Hs.
Qed.

Lemma load_targets_no_planet_witness :
  (exists ts, load_targets digits_to_Z
     ["# host: ra dec ks_mag rstar mstar teff logg metal"; ">WASP-1: 1 2 3 4 5 6 7 8"]
     = Ok ts /\ ts = [])
  /\ load_targets digits_to_Z
       ["# host: ra dec ks_mag rstar mstar teff logg metal";
        ">WASP-1: 1 2 3 4 5 6 7 8"; " WASP-1 b : 1 2 3 4 5 6"]
     = Err NameError.
Proof.
  split.
  - eexists. split; [reflexivity|].
    apply (proj1 (load_targets_no_planet digits_to_Z
             ["# host: ra dec ks_mag rstar mstar teff logg metal"; ">WASP-1: 1 2 3 4 5 6 7 8"])).
    reflexivity.
  - eapply (proj2 (load_targets_no_planet digits_to_Z
             ["# host: ra dec ks_mag rstar mstar teff logg metal";
              ">WASP-1: 1 2 3 4 5 6 7 8"; " WASP-1 b : 1 2 3 4 5 6"])
             [">WASP-1: 1 2 3 4 5 6 7 8"] " WASP-1 b : 1 2 3 4 5 6" []
             _ [1; 2; 3; 4; 5; 6]%Z);
      reflexivity.
Defined.
